(** * homebridge-hue: lib/HuePlatform.js

    A shallow embedding of the Hue platform of homebridge-hue: the
    constructor that resolves config.json into the platform's settings,
    bridge discovery ([findBridges]), the aggregation of the accessories of
    all bridges ([accessories]) and the heartbeat that polls the bridges.

    JavaScript values are an inductive type, objects are finite maps from
    property names to values.  Code that logs, pushes onto [this.bridges],
    issues requests, sets timers or throws is written in a state-and-exception
    monad over an explicit platform state; callbacks are continuations. *)

From stdpp Require Import gmap strings list.
From Equations Require Import Equations.
From Stdlib Require Import ZArith.

Set Warnings "-register-all".
#[local] Open Scope Z_scope.

(** ** JavaScript values *)

(** Numbers.  [Num z] is the integral number [z]; [NaN] is the result of
    converting something that is not numeric.  Fractions and infinities are
    not represented: the numbers of this file are counts, status codes and
    whole seconds. *)
Inductive jsnum :=
| NaN
| Num (z : Z).

Inductive jsval :=
| JUndefined
| JNull
| JBool (b : bool)
| JNum (n : jsnum)
| JStr (s : string)
| JArr (l : list jsval)
| JObj (o : gmap string jsval).

#[global] Instance jsval_inhabited : Inhabited jsval := populate JUndefined.

(** ToBoolean: [undefined], [null], [false], [0], [NaN] and the empty string
    are falsy, everything else (every array and object too) is truthy. *)
Definition truthy (v : jsval) : bool :=
  match v with
  | JUndefined | JNull => false
  | JBool b => b
  | JNum NaN => false
  | JNum (Num z) => negb (z =? 0)
  | JStr s => negb (String.eqb s EmptyString)
  | JArr _ | JObj _ => true
  end.

(** [a || b] *)
Definition js_or (a b : jsval) : jsval := if truthy a then a else b.

(** [v === false] and [v !== undefined] *)
Definition is_false (v : jsval) : bool :=
  match v with JBool false => true | _ => false end.

Definition is_undefined (v : jsval) : bool :=
  match v with JUndefined => true | _ => false end.

(** [v === 0] *)
Definition is_zero (v : jsval) : bool :=
  match v with JNum (Num 0) => true | _ => false end.

(** [o.k] on an object literal or a parsed JSON object: the own property, or
    [undefined].  (None of the keys read in this file is inherited from
    [Object.prototype].) *)
Definition prop (o : gmap string jsval) (k : string) : jsval :=
  default JUndefined (o !! k).

Fixpoint join (sep : string) (l : list string) : string :=
  match l with
  | [] => EmptyString
  | [s] => s
  | s :: l' => s +:+ sep +:+ join sep l'
  end.

(** [a * b] on numbers.  The product of two integral numbers is the exact
    one as long as it is a safe integer (below 2^53 in absolute value);
    beyond that the language rounds, which is not modelled. *)
Definition num_mul (a b : jsnum) : jsnum :=
  match a, b with
  | Num x, Num y => Num (x * y)
  | _, _ => NaN
  end.

Section Coercions.

(** The two conversions between numbers and their text (Number::toString
    and StringToNumber of the language) are left open. *)
Variable NumberToString : jsnum → string.
Variable StringToNumber : string → jsnum.

(** ToString; an array is the join of its elements, where [undefined] and
    [null] elements give the empty string. *)
Fixpoint ToString (v : jsval) : string :=
  match v with
  | JUndefined => "undefined"
  | JNull => "null"
  | JBool true => "true"
  | JBool false => "false"
  | JNum n => NumberToString n
  | JStr s => s
  | JArr l =>
      join "," (map (λ e, match e with
                          | JUndefined | JNull => EmptyString
                          | _ => ToString e
                          end) l)
  | JObj _ => "[object Object]"
  end.

(** ToNumber; arrays and objects go through their string. *)
Definition ToNumber (v : jsval) : jsnum :=
  match v with
  | JUndefined => NaN
  | JNull => Num 0
  | JBool true => Num 1
  | JBool false => Num 0
  | JNum n => n
  | JStr s => StringToNumber s
  | JArr _ | JObj _ => StringToNumber (ToString v)
  end.

(** [a * b] with [a] a number *)
Definition js_mul (a : jsnum) (b : jsval) : jsnum := num_mul a (ToNumber b).

End Coercions.

(** ** The log *)

Inductive Level := Debug | Info | Error.

(** One call [this.log.<level>(args...)]. *)
Record LogEntry := mkLog { level : Level; args : list jsval }.

Definition is_error (e : LogEntry) : bool :=
  match level e with Error => true | _ => false end.

(** The number of [log.error] calls in a log. *)
Definition errors (l : list LogEntry) : nat := length (filter is_error l).

(** ** The platform object *)

(** [this.config], as the constructor builds it.  [excludeSensorTypes] is
    an object used as a set: a type is excluded when its key is there.
    [hosts] is only set when [config.host] is truthy. *)
Record Config := mkConfig {
  heartrate : jsval;
  timeout : jsnum;
  users : jsval;
  lights : jsval;
  philipslights : jsval;
  ct : jsval;
  fakecolor : jsval;
  groups : jsval;
  group0 : bool;
  rooms : bool;
  sensors : jsval;
  excludeSensorTypes : gmap string jsval;
  schedules : jsval;
  rules : jsval;
  hosts : option (list jsval)
}.

(** The bridge object of lib/HueBridge.js, of which the platform only keeps
    the handle; what the platform passes to its constructor is the address. *)
Record HueBridge := mkBridge { address : jsval }.

(** [this] of the platform: the log written so far, the name, the settings
    and the bridges. *)
Record HuePlatform := mkPlatform {
  log : list LogEntry;
  this_name : jsval;
  config : Config;
  bridges : list HueBridge
}.

Definition set_log (l : list LogEntry) (p : HuePlatform) : HuePlatform :=
  mkPlatform l (this_name p) (config p) (bridges p).

Definition set_bridges (b : list HueBridge) (p : HuePlatform) : HuePlatform :=
  mkPlatform (log p) (this_name p) (config p) b.

(** ** The constructor *)

(** The text of a deprecation warning; the key is quoted in it. *)
Definition quote : string := String (Ascii.ascii_of_nat 34) EmptyString.

Definition deprecated (key : string) : string :=
  "config.json: warning: " +:+ quote +:+ key +:+ quote +:+ " has been deprecated".

Section Constructor.

Variable NumberToString : jsnum → string.
Variable StringToNumber : string → jsnum.

(** [packageConfig.name], [packageConfig.version], [process.version] and
    the homebridge version, which the constructor only logs. *)
Variables packageName packageVersion nodeVersion homebridgeVersion : jsval.

(** [o[type] = true] on an object made by [{}]: the key is the string of
    [type]; assigning [true] to [__proto__] goes to the setter of the
    prototype, which ignores it. *)
Definition assign_true (o : gmap string jsval) (type : jsval)
  : gmap string jsval :=
  let key := ToString NumberToString type in
  if String.eqb key "__proto__" then o else <[key := JBool true]> o.

(** [for (const type of config.excludeSensorTypes) { o[type] = true; }] *)
Definition exclude_types (types : list jsval) (o : gmap string jsval)
  : gmap string jsval :=
  foldl assign_true o types.

(** [new HuePlatform(log, config, api)].  [log0] is what the logger has
    written before.  The result is the platform together with [config] as
    the constructor leaves it (it assigns to [config.philipslights]). *)
Definition new_HuePlatform (log0 : list LogEntry) (config : gmap string jsval)
  : HuePlatform * gmap string jsval :=
  let name := prop config "name" in
  let '(log1, config) :=
    if negb (is_undefined (prop config "alllights")) then
      (log0 ++ [mkLog Error
                  [JStr (deprecated "alllights")]],
       <["philipslights" := prop config "alllights"]> config)
    else (log0, config) in
  let excluded :=
    match prop config "excludeSensorTypes" with
    | JArr types => exclude_types types ∅
    | _ => ∅
    end in
  let '(log2, excluded) :=
    if is_false (prop config "clipsensors") then
      (log1 ++ [mkLog Error
                  [JStr (deprecated "clipsensors")]],
       <["Geofence" := JBool true]> (<["CLIP" := JBool true]> excluded))
    else (log1, excluded) in
  let hosts :=
    if truthy (prop config "host") then
      match prop config "host" with
      | JArr l => Some l
      | h => Some [h]
      end
    else None in
  let cfg := {|
    heartrate := js_or (prop config "heartrate") (JNum (Num 5));
    timeout := js_mul NumberToString StringToNumber (Num 1000)
                 (js_or (prop config "timeout") (JNum (Num 5)));
    users := js_or (prop config "users") (JObj ∅);
    lights := js_or (prop config "lights") (JBool false);
    philipslights := js_or (prop config "philipslights") (JBool false);
    ct := js_or (prop config "ct") (JBool false);
    fakecolor := js_or (prop config "fakecolor") (JBool false);
    groups := js_or (prop config "groups") (JBool false);
    group0 := negb (is_false (prop config "group0"));
    rooms := negb (is_false (prop config "rooms"));
    sensors := js_or (prop config "sensors") (JBool false);
    excludeSensorTypes := excluded;
    schedules := js_or (prop config "schedules") (JBool false);
    rules := js_or (prop config "rules") (JBool false);
    hosts := hosts
  |} in
  ({| log := log2 ++ [mkLog Info [JStr "%s v%s, node %s, homebridge v%s";
                                  packageName; packageVersion; nodeVersion;
                                  homebridgeVersion]];
      this_name := name;
      config := cfg;
      bridges := [] |},
   config).

End Constructor.


(** ** The world around the platform *)

(** An accessory, as a bridge hands it over.  The platform passes accessories
    on and only ever reads their name. *)
Record Accessory := mkAccessory { name : string }.

(** A promise, seen from the end of the run: it has been fulfilled, or
    rejected, or it never settles. *)
Inductive Promise (A : Type) :=
| Pending
| Fulfilled (value : A)
| Rejected (reason : jsval).
Arguments Pending {A}.
Arguments Fulfilled {A} value.
Arguments Rejected {A} reason.

(** What the request library calls the handler with: an error object, or
    no error and a response with its status code and body. *)
Inductive Reply :=
| Failure (err : gmap string jsval)
| Response (statusCode : Z) (responseBody : jsval).

(** The options object given to the request library. *)
Module Request.
Record t := make {
  method : string;
  url : string;
  timeout : jsnum;
  json : bool
}.
End Request.

(** Everything the platform does not decide itself: the reply of the meethue
    portal, what [bridge.accessories()] of the [i]-th bridge probed in a run
    settles to, and the order in which these promises settle ([settle] lists
    the indices of those that settle first, in order; the others follow in
    the order of their index). *)
Record World := mkWorld {
  portal : Reply;
  probe : nat → HueBridge → Promise (list Accessory);
  settle : list nat
}.

(** A timer set with [setInterval], with the [beat] its function closes
    over. *)
Record Interval := mkInterval { delay : Z; beat : Z }.

(** The state a run works on: the platform, the requests issued, how often
    control has gone back to the event loop before the rest of the code ran,
    the timers set, the calls [bridge.heartbeat(beat)] made and the calls
    [callback(accessoryList)] made to homebridge. *)
Record State := mkState {
  this : HuePlatform;
  requests : list Request.t;
  turns : nat;
  intervals : list Interval;
  heartbeats : list (HueBridge * Z);
  returned : list (list Accessory)
}.

Definition init (p : HuePlatform) : State := mkState p [] 0 [] [] [].

(** ** The monad: state and exceptions *)

Inductive Result (A : Type) :=
| Ok (a : A)
| Thrown (e : jsval).
Arguments Ok {A} a.
Arguments Thrown {A} e.

Definition M (A : Type) : Type := State → Result A * State.

#[global] Instance M_ret : MRet M := λ A a s, (Ok a, s).

#[global] Instance M_bind : MBind M := λ A B f m s,
  match m s with
  | (Ok a, s') => f a s'
  | (Thrown e, s') => (Thrown e, s')
  end.

Definition throw {A} (e : jsval) : M A := λ s, (Thrown e, s).

(** [try { m } catch (e) { h(e) }] *)
Definition try_catch {A} (m : M A) (h : jsval → M A) : M A := λ s,
  match m s with
  | (Thrown e, s') => h e s'
  | r => r
  end.

Definition gets {A} (f : State → A) : M A := λ s, (Ok (f s), s).
Definition modify (f : State → State) : M unit := λ s, (Ok tt, f s).

Definition TypeError (message : string) : jsval :=
  JObj {[ "message" := JStr message ]}.

(** The state after the platform has logged [es]. *)
Definition logged (es : list LogEntry) (s : State) : State :=
  mkState (set_log (log (this s) ++ es) (this s))
    (requests s) (turns s) (intervals s) (heartbeats s) (returned s).

(** [this.log.<level>(args...)] *)
Definition log_call (lvl : Level) (a : list jsval) : M unit :=
  modify (logged [mkLog lvl a]).

(** [this.bridges.push(bridge)] *)
Definition push_bridge (b : HueBridge) : M unit :=
  modify (λ s, mkState (set_bridges (bridges (this s) ++ [b]) (this s))
                 (requests s) (turns s) (intervals s) (heartbeats s) (returned s)).

(** The code that follows runs later, from the event loop. *)
Definition later : M unit :=
  modify (λ s, mkState (this s) (requests s) (S (turns s)) (intervals s)
                 (heartbeats s) (returned s)).

Definition send (r : Request.t) : M unit :=
  modify (λ s, mkState (this s) (requests s ++ [r]) (turns s) (intervals s)
                 (heartbeats s) (returned s)).

(** [setInterval(f, delay)], where [f] closes over [beat] *)
Definition setInterval (t : Interval) : M unit :=
  modify (λ s, mkState (this s) (requests s) (turns s) (intervals s ++ [t])
                 (heartbeats s) (returned s)).

(** [bridge.heartbeat(beat)] *)
Definition heartbeat (b : HueBridge) (beat : Z) : M unit :=
  modify (λ s, mkState (this s) (requests s) (turns s) (intervals s)
                 (heartbeats s ++ [(b, beat)]) (returned s)).

(** [callback(accessoryList)], the callback homebridge passes to
    [accessories] *)
Definition callback (accessoryList : list Accessory) : M unit :=
  modify (λ s, mkState (this s) (requests s) (turns s) (intervals s)
                 (heartbeats s) (returned s ++ [accessoryList])).

(** [v.k] for a value of any type and a key that no prototype has
    ([length] of arrays and strings apart): reading a property of
    [undefined] or [null] throws. *)
Definition get (v : jsval) (k : string) : M jsval :=
  match v with
  | JUndefined | JNull => throw (TypeError ("Cannot read property " +:+ k))
  | JObj o => mret (prop o k)
  | JArr l =>
      mret (if String.eqb k "length" then JNum (Num (Z.of_nat (length l)))
            else JUndefined)
  | JStr s =>
      mret (if String.eqb k "length" then JNum (Num (Z.of_nat (String.length s)))
            else JUndefined)
  | JBool _ | JNum _ => mret JUndefined
  end.

(** What [for (const x of v)] iterates over: the elements of an array, the
    characters of a string; nothing else in reach is iterable. *)
Definition iterate (v : jsval) : M (list jsval) :=
  match v with
  | JArr l => mret l
  | JStr s =>
      mret ((λ c, JStr (String c EmptyString))
              <$> Stdlib.Strings.String.list_ascii_of_string s)
  | _ => throw (TypeError "not iterable")
  end.

(** [for (const x of l) { body(x) }] *)
Fixpoint for_of {A} (l : list A) (body : A → M unit) : M unit :=
  match l with
  | [] => mret tt
  | x :: l' => body x;; for_of l' body
  end.

(** ** Promises *)

Section Promises.

Context {A : Type}.

(** The reason of the first promise to be rejected, in the order [order]. *)
Fixpoint first_rejection (ps : list (Promise A)) (order : list nat)
  : option jsval :=
  match order with
  | [] => None
  | i :: order' =>
      match ps !! i with
      | Some (Rejected e) => Some e
      | _ => first_rejection ps order'
      end
  end.

(** The values of the promises, if all are fulfilled. *)
Fixpoint all_fulfilled (ps : list (Promise A)) : option (list A) :=
  match ps with
  | [] => Some []
  | Fulfilled v :: ps' => cons v <$> all_fulfilled ps'
  | _ :: _ => None
  end.

(** [Promise.all(ps)]: rejected with the reason of the first of [ps] to be
    rejected; fulfilled with all values, in the order of [ps], when all are
    fulfilled; pending otherwise. *)
Definition Promise_all (order : list nat) (ps : list (Promise A))
  : Promise (list A) :=
  match first_rejection ps (order ++ seq 0 (length ps)) with
  | Some e => Rejected e
  | None =>
      match all_fulfilled ps with
      | Some vs => Fulfilled vs
      | None => Pending
      end
  end.

(** [p.then(f).catch(g)]: [f] runs on the value, [g] on the reason of a
    rejection and on what [f] throws; nothing runs while [p] is pending. *)
Definition then_catch (p : Promise A) (f : A → M unit) (g : jsval → M unit)
  : M unit :=
  match p with
  | Pending => mret tt
  | Fulfilled v => later;; try_catch (f v) g
  | Rejected e => later;; g e
  end.

End Promises.

(** ** Discovery and aggregation *)

(** What discovery hands over for one bridge: [{internalipaddress: host}]. *)
Definition descriptor (host : jsval) : jsval :=
  JObj {[ "internalipaddress" := host ]}.

(** The timer of the heartbeat: [let beat = -1; setInterval(..., 1000)]. *)
Definition heartbeat_timer : Interval := mkInterval 1000 (-1).

Definition too_many (a : Accessory) : LogEntry :=
  mkLog Error [JStr "too many accessories, ignoring %s"; JStr (name a)].

(** [while (accessoryList.length > 99) { const a = accessoryList.pop();
    this.log.error("too many accessories, ignoring %s", a.name); }]
    where [pop] gives the last element ([last]) and takes it off the list
    ([removelast]); on an empty list it would give [undefined]. *)
Equations? drop_excess (accessoryList : list Accessory)
  : M (list Accessory) by wf (length accessoryList) lt :=
  drop_excess accessoryList with decide (99 < length accessoryList)%nat => {
    | left _ with last accessoryList => {
        | Some a := log_call Error (args (too_many a));;
                    drop_excess (removelast accessoryList);
        | None := throw (TypeError "Cannot read property name") };
    | right _ := mret accessoryList }.
Proof.
  rewrite removelast_firstn_len, length_take. lia.
Qed.

Section Platform.

Variable w : World.

(** [request(requestObj, handler)]: the request goes out and the handler
    runs later, on the reply. *)
Definition request {A} (requestObj : Request.t) (handler : Reply → M A)
  : M A :=
  send requestObj;; later;; handler (portal w).

(** [HuePlatform.prototype.findBridges] *)
Definition findBridges {A} (callback : jsval → M A) : M A :=
  hosts ← gets (λ s, hosts (config (this s)));
  match hosts with
  | Some hosts =>
      let response := foldl (λ response host, response ++ [descriptor host])
                        [] hosts in
      callback (JArr response)
  | None =>
      log_call Debug [JStr "contacting meethue portal"];;
      timeout ← gets (λ s, timeout (config (this s)));
      let requestObj := Request.make "GET" "https://www.meethue.com/api/nupnp"
                          timeout true in
      request requestObj (λ reply,
        match reply with
        | Failure err =>
            log_call Error [JStr "meethue portal: communication error %s";
                            JObj err];;
            callback JNull
        | Response statusCode responseBody =>
            if negb (statusCode =? 200) then
              log_call Error [JStr "meethue portal: status %s";
                              JNum (Num statusCode)];;
              callback JNull
            else
              len ← get responseBody "length";
              if is_zero len then
                log_call Error [JStr "meethue portal: no bridges registered"];;
                callback JNull
              else callback responseBody
        end)
  end.

(** The loop over [json] in [accessories]: a bridge is made and kept for
    each entry, and its probe is started. *)
Fixpoint probe_bridges (objs : list jsval)
    (promises : list (Promise (list Accessory)))
  : M (list (Promise (list Accessory))) :=
  match objs with
  | [] => mret promises
  | obj :: objs' =>
      internalipaddress ← get obj "internalipaddress";
      log_call Debug [JStr "probing bridge at %s"; internalipaddress];;
      let bridge := mkBridge internalipaddress in
      push_bridge bridge;;
      probe_bridges objs' (promises ++ [probe w (length promises) bridge])
  end.

(** The two loops that push every accessory of every list. *)
Definition push_all (accessoryList : list Accessory)
    (lists : list (list Accessory)) : list Accessory :=
  foldl (λ accessoryList list,
           foldl (λ accessoryList a, accessoryList ++ [a]) accessoryList list)
        accessoryList lists.

(** The function given to [then]. *)
Definition on_lists (callback : list Accessory → M unit)
    (lists : list (list Accessory)) : M unit :=
  let accessoryList := push_all [] lists in
  (if decide (0 < length accessoryList)%nat
   then setInterval heartbeat_timer else mret tt);;
  accessoryList ← drop_excess accessoryList;
  callback accessoryList.

(** The function given to [catch]. *)
Definition on_error (err : jsval) : M unit :=
  message ← get err "message";
  if truthy message then log_call Error [message] else mret tt.

(** The function given to [findBridges]. *)
Definition on_bridges (callback : list Accessory → M unit) (json : jsval)
  : M unit :=
  if truthy json then
    objs ← iterate json;
    promises ← probe_bridges objs [];
    then_catch (Promise_all (settle w) promises) (on_lists callback) on_error
  else mret tt.

(** [HuePlatform.prototype.accessories] *)
Definition accessories (callback : list Accessory → M unit) : M unit :=
  findBridges (on_bridges callback).

End Platform.

(** ** The heartbeat *)

Definition set_beat (i : nat) (b : Z) : M unit :=
  modify (λ s, mkState (this s) (requests s) (turns s)
                 (alter (λ t, mkInterval (delay t) b) i (intervals s))
                 (heartbeats s) (returned s)).

(** The function of the heartbeat timer, for the timer at index [i]. *)
Definition tick (i : nat) : M unit :=
  t ← gets (λ s, intervals s !! i);
  match t with
  | None => mret tt
  | Some t =>
      let beat := beat t + 1 in
      let beat := Z.rem beat (7 * 24 * 3600) in
      set_beat i beat;;
      bridges ← gets (λ s, bridges (this s));
      for_of bridges (λ bridge, heartbeat bridge beat)
  end.

(** [n] fires of the timer in a row. *)
Fixpoint fires (n : nat) (i : nat) : M unit :=
  match n with
  | O => mret tt
  | S n' => fires n' i;; tick i
  end.

(** ** Vocabulary of the statements *)

(** The request [findBridges] sends to the portal. *)
Definition portal_request (s : State) : Request.t :=
  Request.make "GET" "https://www.meethue.com/api/nupnp"
    (timeout (config (this s))) true.

(** The state once the portal has been asked and has answered, and [es] has
    been logged on the answer. *)
Definition asked (es : list LogEntry) (s : State) : State :=
  mkState
    (set_log (log (this s) ++ mkLog Debug [JStr "contacting meethue portal"] :: es)
       (this s))
    (requests s ++ [portal_request s]) (S (turns s)) (intervals s)
    (heartbeats s) (returned s).

(** An empty response body: an empty array, or an empty text. *)
Definition empty_body (responseBody : jsval) : bool :=
  match responseBody with
  | JArr [] => true
  | JStr EmptyString => true
  | _ => false
  end.

(** The replies that count as failed discovery: an error of the transport,
    a status other than 200, an empty body. *)
Definition discovery_failure (r : Reply) : bool :=
  match r with
  | Failure _ => true
  | Response statusCode responseBody =>
      negb (statusCode =? 200) || empty_body responseBody
  end.

(** The error logged for such a reply. *)
Definition portal_error (r : Reply) : LogEntry :=
  match r with
  | Failure err =>
      mkLog Error [JStr "meethue portal: communication error %s"; JObj err]
  | Response statusCode _ =>
      if negb (statusCode =? 200)
      then mkLog Error [JStr "meethue portal: status %s"; JNum (Num statusCode)]
      else mkLog Error [JStr "meethue portal: no bridges registered"]
  end.

(** The bridge made for an entry of the discovery result, what is logged
    for it, and the probes of a list of entries. *)
Definition bridge_of (o : gmap string jsval) : HueBridge :=
  mkBridge (prop o "internalipaddress").

Definition probing (o : gmap string jsval) : LogEntry :=
  mkLog Debug [JStr "probing bridge at %s"; prop o "internalipaddress"].

Definition probes (w : World) (os : list (gmap string jsval))
  : list (Promise (list Accessory)) :=
  imap (λ i o, probe w i (bridge_of o)) os.

(** The state once the bridges of the entries [os] have been made and
    probed. *)
Definition probed (os : list (gmap string jsval)) (s : State) : State :=
  mkState
    (mkPlatform (log (this s) ++ (probing <$> os)) (this_name (this s))
       (config (this s)) (bridges (this s) ++ (bridge_of <$> os)))
    (requests s) (turns s) (intervals s) (heartbeats s) (returned s).

(** The state once the lists of all bridges have been joined, capped and
    handed to homebridge. *)
Definition aggregated (lists : list (list Accessory)) (s : State) : State :=
  let accessoryList := concat lists in
  mkState
    (set_log (log (this s) ++ (too_many <$> reverse (drop 99 accessoryList)))
       (this s))
    (requests s) (S (turns s))
    (intervals s ++ (if decide (0 < length accessoryList)%nat
                     then [heartbeat_timer] else []))
    (heartbeats s) (returned s ++ [take 99 accessoryList]).

(** What the [catch] function logs for a reason: its [message], when it has
    a truthy one. *)
Definition reported (err : jsval) : list LogEntry :=
  match err with
  | JObj o =>
      if truthy (prop o "message") then [mkLog Error [prop o "message"]] else []
  | _ => []
  end.

(** The state once the [catch] function has run on [err]. *)
Definition failed (err : jsval) (s : State) : State :=
  mkState (set_log (log (this s) ++ reported err) (this s))
    (requests s) (S (turns s)) (intervals s) (heartbeats s) (returned s).

(** The total of the lengths of the lists. *)
Definition total (lists : list (list Accessory)) : nat :=
  sum_list (length <$> lists).

(** The beat after [n] fires of a heartbeat timer: -1 before the first
    fire, then 0, 1, ... around the week of 604800 seconds. *)
Definition beat_after (n : nat) : Z :=
  match n with
  | O => -1
  | S k => Z.of_nat k mod 604800
  end.

(** The calls [bridge.heartbeat(b)] of one fire. *)
Definition notified (bs : list HueBridge) (b : Z) : list (HueBridge * Z) :=
  (λ bridge, (bridge, b)) <$> bs.

(** ** Sample data *)

(** The platform of a [config.json] that names one bridge, and of one that
    names none; the conversions of numbers and text play no part in
    them. *)
Definition sample_construct (raw : gmap string jsval) : HuePlatform :=
  fst (new_HuePlatform (λ _, "NaN") (λ _, NaN)
         (JStr "homebridge-hue") (JStr "0.0.0") (JStr "v0") (JStr "0")
         [] raw).

Definition static_platform : HuePlatform :=
  sample_construct {[ "host" := JStr "10.0.0.5" ]}.

Definition portal_platform : HuePlatform := sample_construct ∅.

Definition lamp (n : nat) : Accessory :=
  mkAccessory ("lamp " +:+ String (Ascii.ascii_of_nat (48 + n)) EmptyString).

(** A world in which the portal times out and every bridge has [n] lamps. *)
Definition lamps_world (n : nat) : World :=
  mkWorld (Failure {[ "code" := JStr "ETIMEDOUT" ]})
    (λ _ _, Fulfilled (lamp <$> seq 0 n)) [].

(** A world in which every probe is rejected with an error that has the
    message [unreachable]. *)
Definition unreachable_world : World :=
  mkWorld (Failure {[ "code" := JStr "ETIMEDOUT" ]})
    (λ _ _, Rejected (JObj {[ "message" := JStr "unreachable" ]})) [].

(** A world in which the portal answers with one entry that has no
    address. *)
Definition blank_entry_world : World :=
  mkWorld (Response 200 (JArr [JObj ∅])) (λ _ _, Fulfilled []) [].

(** ** Growth of the state *)

(** What a run of the platform's own code may do to the state: the log, the
    bridges, the requests, the timers and the lists handed to homebridge are
    only added to at the end, the settings and the name stay, and no bridge
    is sent a heartbeat. *)
Definition grows (s s' : State) : Prop :=
  config (this s') = config (this s) ∧
  this_name (this s') = this_name (this s) ∧
  log (this s) `prefix_of` log (this s') ∧
  bridges (this s) `prefix_of` bridges (this s') ∧
  requests s `prefix_of` requests s' ∧
  (turns s ≤ turns s')%nat ∧
  intervals s `prefix_of` intervals s' ∧
  heartbeats s' = heartbeats s ∧
  returned s `prefix_of` returned s'.

(** A computation that only lets the state grow, however it ends. *)
Definition growing {A} (m : M A) : Prop :=
  ∀ s r s', m s = (r, s') → grows s s'.

(** The platform of a [config.json] with an empty list of hosts. *)
Definition hostless_platform : HuePlatform :=
  sample_construct {[ "host" := JArr [] ]}.

(** A world in which the portal lists a bridge and then [null]. *)
Definition null_entry_world : World :=
  mkWorld (Response 200 (JArr [JObj {[ "internalipaddress" := JStr "10.0.0.7" ]};
                               JNull]))
    (λ _ _, Fulfilled []) [].

(** A world in which the portal answers 200 with no body at all. *)
Definition no_body_world : World :=
  mkWorld (Response 200 JUndefined) (λ _ _, Fulfilled []) [].

(** A world in which the portal answers 200 with an object that is no
    list. *)
Definition object_body_world : World :=
  mkWorld (Response 200 (JObj {[ "error" := JStr "busy" ]}))
    (λ _ _, Fulfilled []) [].

(** A world with two bridges: the first never answers, the second is
    rejected; and one in which both are rejected, the second one first. *)
Definition hanging_world : World :=
  mkWorld (Failure {[ "code" := JStr "ETIMEDOUT" ]})
    (λ i _, match i with
            | O => Pending
            | _ => Fulfilled [lamp 0]
            end) [].

Definition racing_world : World :=
  mkWorld (Failure {[ "code" := JStr "ETIMEDOUT" ]})
    (λ i _, match i with
            | O => Rejected (JObj {[ "message" := JStr "first" ]})
            | _ => Rejected (JObj {[ "message" := JStr "second" ]})
            end) [1%nat].



(** A world in which the portal lists two bridges, the second one without
    an address, and both answer with a lamp. *)
Definition half_blank_world : World :=
  mkWorld (Response 200 (JArr [JObj {[ "internalipaddress" := JStr "10.0.0.7" ]};
                               JObj ∅]))
    (λ _ _, Fulfilled [lamp 0]) [].

(** The platform of a [config.json] that names two bridges. *)
Definition pair_platform : HuePlatform :=
  sample_construct {[ "host" := JArr [JStr "10.0.0.5"; JStr "10.0.0.6"] ]}.

(** * Properties *)

(** ** The monad and the state *)

Lemma bind_Ok {A B} (m : M A) (f : A → M B) s a s' :
  m s = (Ok a, s') → (m ≫= f) s = f a s'.
Proof. intros H. unfold mbind, M_bind. now rewrite H. Qed.

Lemma bind_Thrown {A B} (m : M A) (f : A → M B) s e s' :
  m s = (Thrown e, s') → (m ≫= f) s = (Thrown e, s').
Proof. intros H. unfold mbind, M_bind. now rewrite H. Qed.

Lemma logged_nil s : logged [] s = s.
Proof.
  destruct s as [[l n c b] rq t iv hb rt]. unfold logged, set_log. simpl.
  now rewrite app_nil_r.
Qed.

Lemma logged_app es1 es2 s : logged es2 (logged es1 s) = logged (es1 ++ es2) s.
Proof. unfold logged, set_log. simpl. now rewrite app_assoc. Qed.

Lemma errors_app l1 l2 : errors (l1 ++ l2) = (errors l1 + errors l2)%nat.
Proof. unfold errors. now rewrite filter_app, length_app. Qed.

(** ** The cap *)

Lemma push_all_concat (lists : list (list Accessory)) accessoryList :
  push_all accessoryList lists = accessoryList ++ concat lists.
Proof.
  unfold push_all. revert accessoryList.
  induction lists as [|l lists IH]; intros acc; simpl.
  - now rewrite app_nil_r.
  - rewrite IH, app_assoc. f_equal.
    clear IH. revert acc. induction l as [|a l IHl]; intros acc; simpl.
    + now rewrite app_nil_r.
    + rewrite IHl. now rewrite <- app_assoc.
Qed.

(** The loop keeps the first 99 accessories and logs one error for each of
    the others, last one first; it never throws. *)
Lemma drop_excess_spec (accessoryList : list Accessory) s :
  drop_excess accessoryList s =
    (Ok (take 99 accessoryList),
     logged (too_many <$> reverse (drop 99 accessoryList)) s).
Proof.
  revert s. funelim (drop_excess accessoryList); intros s.
  - (* at most 99: nothing to do *)
    rewrite take_ge, drop_ge by lia. simpl. now rewrite logged_nil.
  - (* more than 99: the last one goes *)
    clear Heqcall Heq0.
    apply last_Some in Heq as [front ->].
    rewrite removelast_last in H |- *.
    rewrite length_app in l; simpl in l.
    unfold log_call, modify, mbind, M_bind.
    rewrite (H tt s). rewrite logged_app. f_equal.
    + f_equal. rewrite take_app_le by lia. reflexivity.
    + f_equal. rewrite drop_app_le by lia.
      rewrite reverse_app. reflexivity.
  - (* the list is not empty *)
    exfalso. apply last_None in Heq. subst. simpl in *. lia.
Qed.

(** ** The constructor *)

Section ConstructorFacts.

Variable NumberToString : jsnum → string.
Variable StringToNumber : string → jsnum.
Variables packageName packageVersion nodeVersion homebridgeVersion : jsval.

Abbreviation construct :=
  (new_HuePlatform NumberToString StringToNumber
     packageName packageVersion nodeVersion homebridgeVersion).






End ConstructorFacts.



Lemma get_state v k s r s' : get v k s = (r, s') → s' = s.
Proof.
  destruct v; simpl; unfold throw, mret, M_ret; intros [= _ <-]; reflexivity.
Qed.

(** Two states built from the same parts are the same. *)
Ltac same_state :=
  unfold asked, logged, probed, aggregated, failed, set_log, set_bridges,
    portal_request;
  simpl; rewrite <- ?app_assoc; simpl; try reflexivity.

(** ** Discovery *)

Lemma snoc_descriptors (l acc : list jsval) :
  foldl (λ response host, response ++ [descriptor host]) acc l
  = acc ++ (descriptor <$> l).
Proof.
  revert acc. induction l as [|h l IH]; intros acc; simpl.
  - now rewrite app_nil_r.
  - rewrite IH. now rewrite <- app_assoc.
Qed.

(** The callback is called last on every path, so [findBridges] with a
    callback is [findBridges] followed by the callback. *)
Lemma findBridges_cps {A} w (k : jsval → M A) s :
  findBridges w k s = (findBridges w mret ≫= k) s.
Proof.
  unfold findBridges, request, log_call, send, later, modify, gets,
    mbind, M_bind, mret, M_ret.
  destruct (hosts (config (this s))); [reflexivity|].
  destruct (portal w) as [err|statusCode responseBody]; [reflexivity|].
  destruct (negb (statusCode =? 200)); [reflexivity|].
  match goal with
  | |- context [get ?b ?k ?s0] => destruct (get b k s0) as [[v|e] s2]
  end; [destruct (is_zero v)|]; reflexivity.
Qed.

(** Static hosts: the descriptors of the hosts, at once and with no effect
    at all. *)
Lemma findBridges_static w s l :
  hosts (config (this s)) = Some l →
  findBridges w mret s = (Ok (JArr (descriptor <$> l)), s).
Proof.
  intros H. unfold findBridges, gets, mbind, M_bind. rewrite H.
  now rewrite snoc_descriptors.
Qed.

(** Failed discovery: one error is logged and the callback gets [null]. *)
Lemma findBridges_failure w s :
  hosts (config (this s)) = None →
  discovery_failure (portal w) = true →
  findBridges w mret s = (Ok JNull, asked [portal_error (portal w)] s).
Proof.
  intros H F.
  unfold findBridges, request, log_call, send, later, modify, gets,
    mbind, M_bind, mret, M_ret. rewrite H.
  unfold discovery_failure, portal_error in *.
  destruct (portal w) as [err|statusCode responseBody]; [now same_state|].
  destruct (negb (statusCode =? 200)); [now same_state|]. simpl in F.
  destruct responseBody as [| | | |t|l|]; try discriminate.
  - destruct t; [now same_state|discriminate].
  - destruct l; [now same_state|discriminate].
Qed.

(** A body with entries under status 200 goes to the callback as it is, and
    nothing but the debug line is logged. *)
Lemma findBridges_entries w s entries :
  hosts (config (this s)) = None →
  portal w = Response 200 (JArr entries) →
  entries ≠ [] →
  findBridges w mret s = (Ok (JArr entries), asked [] s).
Proof.
  intros H P Hne.
  unfold findBridges, request, log_call, send, later, modify, gets,
    mbind, M_bind, mret, M_ret. rewrite H, P.
  destruct entries; [congruence|now same_state].
Qed.

(** [findBridges] sets no timer and does not call homebridge back. *)
Lemma findBridges_quiet w s r s' :
  findBridges w mret s = (r, s') →
  intervals s' = intervals s ∧ returned s' = returned s
  ∧ heartbeats s' = heartbeats s.
Proof.
  unfold findBridges, request, log_call, send, later, modify, gets,
    mbind, M_bind, mret, M_ret.
  destruct (hosts (config (this s))); [intros [= <- <-]; auto|].
  destruct (portal w) as [err|statusCode responseBody];
    [intros [= <- <-]; auto|].
  destruct (negb (statusCode =? 200)); [intros [= <- <-]; auto|].
  match goal with
  | |- context [get ?b ?k ?s0] =>
      destruct (get b k s0) as [[v|e] s2] eqn:G;
      apply get_state in G as ->
  end; [destruct (is_zero v)|]; intros [= <- <-]; auto.
Qed.

(** ** Probing *)

Lemma probe_bridges_objects w os promises s :
  probe_bridges w (JObj <$> os) promises s =
    (Ok (promises
         ++ imap (λ i o, probe w (length promises + i) (bridge_of o)) os),
     probed os s).
Proof.
  revert promises s. induction os as [|o os IH]; intros promises s.
  - simpl. unfold mret, M_ret, probed. rewrite !app_nil_r.
    now destruct s as [[]].
  - cbn [fmap list_fmap probe_bridges get].
    unfold log_call, push_bridge, modify, mbind, M_bind, mret, M_ret.
    rewrite IH. f_equal.
    + f_equal. rewrite <- app_assoc. cbn [imap app]. f_equal. f_equal.
      * f_equal. lia.
      * apply imap_ext. intros i x _. simpl. rewrite length_app. simpl.
        f_equal. lia.
    + unfold probed, logged, set_log, set_bridges. simpl.
      now rewrite <- !app_assoc.
Qed.

Lemma probe_bridges_quiet w objs promises s r s' :
  probe_bridges w objs promises s = (r, s') →
  intervals s' = intervals s ∧ returned s' = returned s
  ∧ heartbeats s' = heartbeats s.
Proof.
  revert promises s. induction objs as [|obj objs IH]; intros promises s.
  - simpl. intros [= <- <-]. auto.
  - cbn [probe_bridges].
    unfold log_call, push_bridge, modify, mbind, M_bind.
    destruct (get obj "internalipaddress" s) as [[a|e] s1] eqn:G.
    + apply get_state in G as ->.
      intros H. apply IH in H. simpl in H. exact H.
    + apply get_state in G as ->. intros [= <- <-]. auto.
Qed.

(** ** The join *)

Section PromiseFacts.

Context {A : Type}.
Implicit Types (ps : list (Promise A)) (order : list nat).

Lemma first_rejection_app ps order1 order2 :
  first_rejection ps (order1 ++ order2) =
    match first_rejection ps order1 with
    | Some e => Some e
    | None => first_rejection ps order2
    end.
Proof.
  induction order1 as [|i order1 IH]; simpl; [reflexivity|].
  destruct (ps !! i) as [[| |e]|]; auto.
Qed.



Lemma all_fulfilled_values (vs : list A) :
  all_fulfilled (Fulfilled <$> vs) = Some vs.
Proof.
  induction vs as [|v vs IH]; [reflexivity|].
  rewrite fmap_cons. cbn [all_fulfilled]. now rewrite IH.
Qed.

Lemma first_rejection_values (vs : list A) order :
  first_rejection (Fulfilled <$> vs) order = None.
Proof.
  induction order as [|i order IH]; simpl; [reflexivity|].
  rewrite list_lookup_fmap. destruct (vs !! i); simpl; exact IH.
Qed.

(** When every promise is fulfilled, so is the join, with the values in the
    order of the promises, whatever the order in which they settled. *)
Lemma Promise_all_fulfilled order (vs : list A) :
  Promise_all order (Fulfilled <$> vs) = Fulfilled vs.
Proof.
  unfold Promise_all. now rewrite first_rejection_values, all_fulfilled_values.
Qed.


End PromiseFacts.


Lemma on_error_spec err s :
  ∃ r, on_error err s = (r, logged (reported err) s).
Proof.
  unfold on_error, log_call, modify, mbind, M_bind.
  destruct err as [| |b|n|t|l|o]; simpl; unfold throw, mret, M_ret;
    try (eexists; now rewrite logged_nil).
  destruct (truthy (prop o "message")); eexists; try reflexivity.
  now rewrite logged_nil.
Qed.

Lemma on_lists_spec lists s :
  on_lists callback lists s
  = (Ok tt, mkState
              (set_log (log (this s)
                        ++ (too_many <$> reverse (drop 99 (concat lists))))
                 (this s))
              (requests s) (turns s)
              (intervals s ++ (if decide (0 < length (concat lists))%nat
                               then [heartbeat_timer] else []))
              (heartbeats s) (returned s ++ [take 99 (concat lists)])).
Proof.
  unfold on_lists. rewrite push_all_concat. simpl.
  unfold mbind, M_bind.
  destruct (decide (0 < length (concat lists))%nat);
    unfold setInterval, callback, modify, mret, M_ret;
    rewrite drop_excess_spec; same_state.
  now rewrite app_nil_r.
Qed.

(** What the chain [Promise.all(promises).then(...).catch(...)] does, for
    each outcome of the join. *)
Lemma join_pending s :
  then_catch (A:=list (list Accessory)) Pending (on_lists callback) on_error s
  = (Ok tt, s).
Proof. reflexivity. Qed.

Lemma join_fulfilled lists s :
  then_catch (Fulfilled lists) (on_lists callback) on_error s
  = (Ok tt, aggregated lists s).
Proof.
  unfold then_catch, later, modify, try_catch, mbind, M_bind.
  rewrite on_lists_spec. same_state.
Qed.


Lemma join_rejected err s :
  ∃ r, then_catch (A:=list (list Accessory)) (Rejected err)
         (on_lists callback) on_error s
       = (r, failed err s).
Proof.
  unfold then_catch, later, modify, mbind, M_bind.
  match goal with
  | |- context [on_error err ?s0] => destruct (on_error_spec err s0) as [r ->]
  end.
  exists r. same_state.
Qed.

(** ** Aggregation *)

(** Both ways of discovery give entries that are objects: the descriptors
    of the static hosts, and what the portal lists. *)
Lemma discovered_static w s l :
  hosts (config (this s)) = Some l →
  findBridges w mret s
  = (Ok (JArr (JObj <$> ((λ h, {[ "internalipaddress" := h ]}) <$> l))), s).
Proof.
  intros H. rewrite (findBridges_static _ _ _ H).
  now rewrite <- list_fmap_compose.
Qed.

Lemma discovered_portal w s o os :
  hosts (config (this s)) = None →
  portal w = Response 200 (JArr (JObj <$> o :: os)) →
  findBridges w mret s = (Ok (JArr (JObj <$> o :: os)), asked [] s).
Proof. intros H P. now apply findBridges_entries. Qed.

(** Once discovery has given the entries [os], [accessories] is the chain
    on the probes of these entries, in the state where their bridges have
    been made. *)
Lemma accessories_discovered w s s1 os :
  findBridges w mret s = (Ok (JArr (JObj <$> os)), s1) →
  accessories w callback s
  = then_catch (Promise_all (settle w) (probes w os))
      (on_lists callback) on_error (probed os s1).
Proof.
  intros D. unfold accessories. rewrite findBridges_cps.
  rewrite (bind_Ok _ _ _ _ _ D).
  unfold on_bridges. change (truthy (JArr (JObj <$> os))) with true.
  unfold iterate, mbind, M_bind, mret, M_ret.
  rewrite probe_bridges_objects. reflexivity.
Qed.

Lemma total_concat lists : length (concat lists) = total lists.
Proof.
  unfold total. induction lists as [|l lists IH]; simpl; [reflexivity|].
  rewrite length_app, IH. reflexivity.
Qed.

Lemma errors_probing os : errors (probing <$> os) = 0%nat.
Proof. unfold errors. induction os as [|o os IH]; simpl; auto. Qed.

Lemma errors_too_many l : errors (too_many <$> l) = length l.
Proof.
  unfold errors. induction l as [|a l IH]; [reflexivity|].
  rewrite fmap_cons, filter_cons_True by exact I. simpl. now rewrite IH.
Qed.

(** Every way [accessories] can go: either no timer is set and homebridge
    is not called back, or homebridge gets the first 99 of the joined lists
    and the timer is set when there is an accessory at all. *)
Lemma accessories_cases w s r s' :
  accessories w callback s = (r, s') →
  (intervals s' = intervals s ∧ returned s' = returned s) ∨
  (∃ lists,
     returned s' = returned s ++ [take 99 (concat lists)] ∧
     intervals s' = intervals s ++ (if decide (0 < length (concat lists))%nat
                                    then [heartbeat_timer] else [])).
Proof.
  unfold accessories. rewrite findBridges_cps.
  unfold mbind at 1, M_bind at 1.
  destruct (findBridges w mret s) as [[json|e] s1] eqn:D;
    apply findBridges_quiet in D as (Di & Dr & _);
    rewrite <- Di, <- Dr; [|intros [= <- <-]; auto].
  unfold on_bridges.
  destruct (truthy json); [|intros [= <- <-]; auto].
  unfold mbind at 1, M_bind at 1.
  destruct (iterate json s1) as [[objs|e] s2] eqn:I.
  - assert (s2 = s1) as ->
      by (destruct json; simpl in I; unfold throw, mret, M_ret in I; congruence).
    unfold mbind at 1, M_bind at 1.
    destruct (probe_bridges w objs [] s1) as [[promises|e] s2] eqn:P;
      apply probe_bridges_quiet in P as (Pi & Pr & _);
      rewrite <- Pi, <- Pr; [|intros [= <- <-]; auto].
    destruct (Promise_all (settle w) promises) as [|lists|err].
    + rewrite join_pending. intros [= <- <-]. auto.
    + rewrite join_fulfilled. intros [= <- <-]. right. exists lists. auto.
    + destruct (join_rejected err s2) as [r' ->]. intros [= <- <-]. auto.
  - assert (s2 = s1) as ->
      by (destruct json; simpl in I; unfold throw, mret, M_ret in I; congruence).
    intros [= <- <-]. auto.
Qed.

(** Whatever happens, a list handed to homebridge has at most 99
    accessories. *)
Lemma exposed_at_most_99 w s r s' :
  accessories w callback s = (r, s') →
  Forall (λ l, (length l ≤ 99)%nat) (returned s) →
  Forall (λ l, (length l ≤ 99)%nat) (returned s').
Proof.
  intros H F. apply accessories_cases in H as [[_ ->]|(lists & -> & _)];
    [exact F|].
  apply Forall_app. split; [exact F|].
  apply Forall_singleton. rewrite length_take. lia.
Qed.

(** C6: when discovery gives the entries [os], every probe is fulfilled and
    the lists have at most 99 accessories in all, homebridge is handed the
    lists one after the other, in the order of the entries and each list in
    its own order: as many accessories as there are in all; nothing is
    dropped and no error is logged. *)
Theorem aggregate_within_cap w s s1 os lists :
  findBridges w mret s = (Ok (JArr (JObj <$> os)), s1) →
  probes w os = Fulfilled <$> lists →
  (total lists ≤ 99)%nat →
  ∃ s2,
    accessories w callback s = (Ok tt, s2) ∧
    returned s2 = returned s ++ [concat lists] ∧
    length (concat lists) = total lists ∧
    log (this s2) = log (this s1) ++ (probing <$> os) ∧
    errors (log (this s2)) = errors (log (this s1)).
Proof.
  intros D P T. exists (aggregated lists (probed os s1)).
  pose proof (total_concat lists) as L.
  apply findBridges_quiet in D as Q. destruct Q as (_ & Qr & _).
  split; [|split; [|split; [|split]]].
  - rewrite (accessories_discovered _ _ _ _ D), P, Promise_all_fulfilled.
    apply join_fulfilled.
  - simpl. rewrite take_ge by lia. now rewrite Qr.
  - exact L.
  - simpl. rewrite drop_ge by lia. simpl. now rewrite app_nil_r.
  - simpl. rewrite drop_ge by lia. simpl.
    now rewrite app_nil_r, errors_app, errors_probing, Nat.add_0_r.
Qed.

(** C1: when every probe is fulfilled and the lists have more than 99
    accessories in all, homebridge is handed exactly the first 99 of the
    joined lists; for each of the others, from the last one back, one error
    naming it is logged, that is the total minus 99 errors; and no list
    handed to homebridge is longer than 99. *)
Theorem aggregate_over_cap w s s1 os lists :
  findBridges w mret s = (Ok (JArr (JObj <$> os)), s1) →
  probes w os = Fulfilled <$> lists →
  (99 < total lists)%nat →
  ∃ s2,
    accessories w callback s = (Ok tt, s2) ∧
    returned s2 = returned s ++ [take 99 (concat lists)] ∧
    length (take 99 (concat lists)) = 99%nat ∧
    log (this s2)
      = log (this s1) ++ (probing <$> os)
        ++ (too_many <$> reverse (drop 99 (concat lists))) ∧
    length (too_many <$> reverse (drop 99 (concat lists)))
      = (total lists - 99)%nat ∧
    errors (log (this s2)) = (errors (log (this s1)) + (total lists - 99))%nat ∧
    (Forall (λ l, (length l ≤ 99)%nat) (returned s) →
     Forall (λ l, (length l ≤ 99)%nat) (returned s2)).
Proof.
  intros D P T. exists (aggregated lists (probed os s1)).
  pose proof (total_concat lists) as L.
  pose proof (findBridges_quiet _ _ _ _ D) as (_ & Qr & _).
  assert (R : accessories w callback s
              = (Ok tt, aggregated lists (probed os s1))).
  { rewrite (accessories_discovered _ _ _ _ D), P, Promise_all_fulfilled.
    apply join_fulfilled. }
  split; [exact R|]. split; [simpl; now rewrite Qr|].
  split; [rewrite length_take; lia|].
  split; [simpl; now rewrite <- app_assoc|].
  split; [rewrite length_fmap, length_reverse, length_drop; lia|].
  split.
  - simpl. rewrite !errors_app, errors_probing, errors_too_many.
    rewrite length_reverse, length_drop. lia.
  - apply (exposed_at_most_99 _ _ _ _ R).
Qed.


(** C4: in every run of [accessories] that hands a list to homebridge, the
    heartbeat timer is set exactly when that list is not empty (the cap does
    not change this: it leaves 99 accessories). *)
Theorem heartbeat_iff_nonempty w s r s' l :
  accessories w callback s = (r, s') →
  returned s' = returned s ++ [l] →
  (intervals s' = intervals s ++ [heartbeat_timer] ↔ l ≠ []) ∧
  (intervals s' = intervals s ↔ l = []).
Proof.
  intros H R.
  assert (Hneq : ∀ (x : Interval) iv, iv ≠ iv ++ [x]).
  { intros x iv E. apply (f_equal length) in E.
    rewrite length_app in E. simpl in E. lia. }
  apply accessories_cases in H as [[_ Hr]|(lists & Hr & Hi)].
  - rewrite Hr in R. apply (f_equal length) in R.
    rewrite length_app in R. simpl in R. lia.
  - rewrite Hr in R. apply app_inj_tail in R as [_ <-].
    rewrite Hi. destruct (concat lists) as [|a flat]; simpl.
    + rewrite app_nil_r. split; split; auto; try congruence;
        intros E; now apply Hneq in E.
    + split; split; auto; try discriminate;
        intros E; symmetry in E; now apply Hneq in E.
Qed.

(** ** The heartbeat *)

Lemma for_of_heartbeat bs b s :
  for_of bs (λ bridge, heartbeat bridge b) s
  = (Ok tt, mkState (this s) (requests s) (turns s) (intervals s)
              (heartbeats s ++ notified bs b) (returned s)).
Proof.
  revert s. induction bs as [|x bs IH]; intros s; simpl.
  - unfold mret, M_ret. rewrite app_nil_r. now destruct s.
  - unfold heartbeat, modify, mbind, M_bind. rewrite IH. simpl.
    now rewrite <- app_assoc.
Qed.

Lemma tick_spec i s t :
  intervals s !! i = Some t →
  tick i s
  = (Ok tt,
     mkState (this s) (requests s) (turns s)
       (alter (λ t', mkInterval (delay t') (Z.rem (beat t + 1) (7 * 24 * 3600)))
          i (intervals s))
       (heartbeats s
        ++ notified (bridges (this s)) (Z.rem (beat t + 1) (7 * 24 * 3600)))
       (returned s)).
Proof.
  intros H. unfold tick, gets, set_beat, modify, mbind, M_bind. rewrite H.
  now rewrite for_of_heartbeat.
Qed.

Lemma beat_step n :
  Z.rem (beat_after n + 1) (7 * 24 * 3600) = beat_after (S n).
Proof.
  change (7 * 24 * 3600) with 604800.
  destruct n as [|k]; [reflexivity|].
  unfold beat_after.
  rewrite Z.rem_mod_nonneg
    by (pose proof (Z.mod_pos_bound (Z.of_nat k) 604800); lia).
  rewrite Zplus_mod_idemp_l. f_equal. lia.
Qed.

Lemma fires_spec n i s :
  intervals s !! i = Some heartbeat_timer →
  ∃ sn, fires n i s = (Ok tt, sn)
        ∧ intervals sn !! i = Some (mkInterval 1000 (beat_after n))
        ∧ this sn = this s.
Proof.
  intros H. induction n as [|n (sn & F & I & T)].
  - exists s. auto.
  - eexists. cbn [fires]. rewrite (bind_Ok _ _ _ _ _ F).
    rewrite (tick_spec _ _ _ I). split; [reflexivity|]. simpl.
    split; [|exact T].
    rewrite list_lookup_alter_eq, I. cbn [fmap option_fmap option_map delay beat].
    now rewrite beat_step.
Qed.

(** C5: the timer starts with the beat -1.  The fire number [n + 1] takes
    the beat from its value after [n] fires to the next one, which is [n]
    modulo 604800: one more, or 0 after 604799; it lies in [0, 604800); and
    that fire calls [heartbeat] with this beat on every bridge of
    [this.bridges], in order. *)
Theorem heartbeat_beats n i s :
  intervals s !! i = Some heartbeat_timer →
  beat heartbeat_timer = -1 ∧
  ∃ sn sn1,
    fires n i s = (Ok tt, sn) ∧
    tick i sn = (Ok tt, sn1) ∧
    fires (S n) i s = (Ok tt, sn1) ∧
    beat <$> intervals sn !! i = Some (beat_after n) ∧
    beat <$> intervals sn1 !! i = Some (beat_after (S n)) ∧
    beat_after (S n) = Z.of_nat n mod 604800 ∧
    0 ≤ beat_after (S n) < 604800 ∧
    beat_after (S n)
      = (if decide (beat_after n = 604799) then 0 else beat_after n + 1) ∧
    heartbeats sn1
      = heartbeats sn ++ notified (bridges (this sn)) (beat_after (S n)) ∧
    bridges (this sn1) = bridges (this s).
Proof.
  intros H. split; [reflexivity|].
  destruct (fires_spec n i s H) as (sn & F & I & T).
  pose proof (tick_spec _ _ _ I) as K. simpl in K. rewrite beat_step in K.
  eexists sn, _. split; [exact F|]. split; [exact K|].
  split; [cbn [fires]; rewrite (bind_Ok _ _ _ _ _ F); exact K|].
  split; [now rewrite I|].
  split; [simpl; now rewrite list_lookup_alter_eq, I|].
  split; [reflexivity|].
  split; [apply Z.mod_pos_bound; lia|].
  split; [|split; [reflexivity|simpl; now rewrite T]].
  rewrite <- beat_step. change (7 * 24 * 3600) with 604800.
  destruct n as [|k]; [reflexivity|]. unfold beat_after.
  pose proof (Z.mod_pos_bound (Z.of_nat k) 604800 ltac:(lia)) as B.
  rewrite Z.rem_mod_nonneg by lia.
  destruct (decide (Z.of_nat k mod 604800 = 604799)) as [E|E].
  - rewrite E. reflexivity.
  - apply Z.mod_small. lia.
Qed.

(** C7: with static hosts, [findBridges] hands its callback the descriptors
    of exactly these hosts, one for each and in their order; it does so
    at once, before it returns, and leaves the state as it is: no request
    goes out and nothing is logged. *)
Theorem static_hosts_discovery w s l :
  hosts (config (this s)) = Some l →
  l ≠ [] →
  findBridges w mret s = (Ok (JArr (descriptor <$> l)), s) ∧
  length (descriptor <$> l) = length l ∧
  (∀ i h, l !! i = Some h →
          (descriptor <$> l) !! i = Some (JObj {[ "internalipaddress" := h ]})) ∧
  requests (snd (findBridges w mret s)) = requests s ∧
  turns (snd (findBridges w mret s)) = turns s.
Proof.
  intros H _. rewrite (findBridges_static _ _ _ H). simpl.
  split; [reflexivity|]. split; [apply length_fmap|].
  split; [|auto].
  intros i h Hi. now rewrite list_lookup_fmap, Hi.
Qed.

(** ** Failed discovery *)

Lemma portal_error_is_error r : is_error (portal_error r) = true.
Proof. destruct r; simpl; [reflexivity|]. now destruct (negb _). Qed.

(** C3, as the code has it: on an error of the transport, a status other
    than 200 or an empty body, [findBridges] logs exactly one error and hands
    its callback [null]; [accessories] then stops there: no bridge is made,
    no timer is set, and homebridge is not called back at all. *)
Theorem discovery_failure_absorbed w s :
  hosts (config (this s)) = None →
  discovery_failure (portal w) = true →
  findBridges w mret s = (Ok JNull, asked [portal_error (portal w)] s) ∧
  errors (log (this (asked [portal_error (portal w)] s)))
    = S (errors (log (this s))) ∧
  accessories w callback s = (Ok tt, asked [portal_error (portal w)] s) ∧
  bridges (this (snd (accessories w callback s))) = bridges (this s) ∧
  intervals (snd (accessories w callback s)) = intervals s ∧
  returned (snd (accessories w callback s)) = returned s.
Proof.
  intros H F.
  pose proof (findBridges_failure _ _ H F) as D.
  assert (R : accessories w callback s
              = (Ok tt, asked [portal_error (portal w)] s)).
  { unfold accessories. rewrite findBridges_cps.
    now rewrite (bind_Ok _ _ _ _ _ D). }
  split; [exact D|]. split; [|rewrite R; auto].
  simpl. rewrite errors_app. unfold errors at 2.
  rewrite filter_cons_False by (simpl; auto).
  rewrite filter_cons_True by (rewrite portal_error_is_error; exact I).
  simpl. lia.
Qed.

(** C3 as stated fails: when the portal cannot be reached, the callback of
    [findBridges] gets [null], not an empty array, and homebridge is never
    handed an empty list: it is not called back. *)
Lemma discovery_failure_returns_nothing :
  let w := lamps_world 1 in
  let s := init portal_platform in
  hosts (config (this s)) = None ∧
  discovery_failure (portal w) = true ∧
  fst (findBridges w mret s) ≠ Ok (JArr []) ∧
  returned (snd (accessories w callback s)) ≠ returned s ++ [[]] ∧
  returned (snd (accessories w callback s)) = [].
Proof.
  vm_compute. repeat split; discriminate.
Qed.

(** C8, as the code has it: under status 200, for a body that is a list of
    objects with at least one entry, an entry without [internalipaddress]
    is no failure of discovery: the body is handed on as it is and no error
    is logged, a bridge is made for every entry, and for an entry without
    [internalipaddress] its address is [undefined]. *)
Theorem discovery_entries_unchecked w s os :
  hosts (config (this s)) = None →
  portal w = Response 200 (JArr (JObj <$> os)) →
  os ≠ [] →
  findBridges w mret s = (Ok (JArr (JObj <$> os)), asked [] s) ∧
  errors (log (this (asked [] s))) = errors (log (this s)) ∧
  bridges (this (snd (accessories w callback s)))
    = bridges (this s) ++ (bridge_of <$> os) ∧
  ∀ i o, os !! i = Some o → o !! "internalipaddress" = None →
         (bridge_of <$> os) !! i = Some (mkBridge JUndefined).
Proof.
  intros H P Hne.
  assert (D : findBridges w mret s = (Ok (JArr (JObj <$> os)), asked [] s)).
  { apply findBridges_entries; [exact H|exact P|].
    destruct os; [congruence|discriminate]. }
  split; [exact D|]. split.
  { simpl. rewrite errors_app. unfold errors at 2.
    rewrite filter_cons_False by (simpl; auto). simpl. lia. }
  split.
  - rewrite (accessories_discovered _ _ _ _ D).
    destruct (Promise_all (settle w) (probes w os)) as [|lists|err].
    + now rewrite join_pending.
    + now rewrite join_fulfilled.
    + destruct (join_rejected err (probed os (asked [] s))) as [r ->].
      reflexivity.
  - intros i o Hi Ho. rewrite list_lookup_fmap, Hi. simpl.
    unfold bridge_of, prop. now rewrite Ho.
Qed.

(** C8 as stated fails: an entry without [internalipaddress] under status
    200 is no failure of discovery: no error is logged, the callback gets the
    body and not [null], and a bridge with an undefined address is made. *)
Lemma blank_entry_is_probed :
  let w := blank_entry_world in
  let s := init portal_platform in
  fst (findBridges w mret s) = Ok (JArr [JObj ∅]) ∧
  fst (findBridges w mret s) ≠ Ok JNull ∧
  errors (log (this (snd (findBridges w mret s)))) = errors (log (this s)) ∧
  bridges (this (snd (accessories w callback s))) = [mkBridge JUndefined].
Proof.
  vm_compute. repeat split; discriminate.
Qed.

(** ** The statements at work *)

(** One bridge with 12 lamps: homebridge gets the 12 lamps. *)
Lemma aggregate_within_cap_witness :
  ∃ s2, accessories (lamps_world 12) callback (init static_platform) = (Ok tt, s2)
        ∧ returned s2 = [lamp <$> seq 0 12].
Proof.
  destruct (aggregate_within_cap (lamps_world 12) (init static_platform)
              (init static_platform)
              [{[ "internalipaddress" := JStr "10.0.0.5" ]}]
              [lamp <$> seq 0 12])
    as (s2 & R & Hr & _).
  - vm_compute. reflexivity.
  - reflexivity.
  - vm_compute. lia.
  - exists s2. split; [exact R|]. rewrite Hr. vm_compute. reflexivity.
Defined.

(** One bridge with 120 lamps: homebridge gets the first 99, and 21 errors
    are logged. *)
Lemma aggregate_over_cap_witness :
  ∃ s2, accessories (lamps_world 120) callback (init static_platform) = (Ok tt, s2)
        ∧ returned s2 = [lamp <$> seq 0 99]
        ∧ errors (log (this s2)) = 21%nat.
Proof.
  destruct (aggregate_over_cap (lamps_world 120) (init static_platform)
              (init static_platform)
              [{[ "internalipaddress" := JStr "10.0.0.5" ]}]
              [lamp <$> seq 0 120])
    as (s2 & R & Hr & _ & _ & _ & He & _).
  - vm_compute. reflexivity.
  - reflexivity.
  - vm_compute. lia.
  - exists s2. split; [exact R|]. rewrite Hr, He. vm_compute. auto.
Defined.



(** The portal times out: one error, and homebridge is not called back. *)
Lemma discovery_failure_absorbed_witness :
  errors (log (this (snd (accessories (lamps_world 1) callback
                            (init portal_platform)))))
    = S (errors (log portal_platform))
  ∧ returned (snd (accessories (lamps_world 1) callback (init portal_platform)))
    = [].
Proof.
  destruct (discovery_failure_absorbed (lamps_world 1) (init portal_platform))
    as (_ & He & R & _ & _ & Hr).
  - reflexivity.
  - reflexivity.
  - rewrite R in Hr |- *. split; [exact He|exact Hr].
Defined.

(** One bridge with 12 lamps: the timer is set. *)
Lemma heartbeat_iff_nonempty_witness :
  intervals (snd (accessories (lamps_world 12) callback (init static_platform)))
  = [heartbeat_timer].
Proof.
  destruct (heartbeat_iff_nonempty (lamps_world 12) (init static_platform)
              (fst (accessories (lamps_world 12) callback (init static_platform)))
              (snd (accessories (lamps_world 12) callback (init static_platform)))
              (lamp <$> seq 0 12))
    as [[_ Hs] _].
  - apply surjective_pairing.
  - vm_compute. reflexivity.
  - apply Hs. discriminate.
Defined.

(** The third fire of a fresh timer has the beat 2. *)
Lemma heartbeat_beats_witness :
  ∃ s3, fires 3 0 (mkState static_platform [] 0 [heartbeat_timer] [] [])
        = (Ok tt, s3)
        ∧ beat <$> intervals s3 !! 0%nat = Some 2.
Proof.
  destruct (heartbeat_beats 2 0 (mkState static_platform [] 0 [heartbeat_timer] [] []))
    as (_ & s2 & s3 & _ & _ & F & _ & B & _).
  - reflexivity.
  - exists s3. split; [exact F|exact B].
Defined.

(** The one host of the sample configuration is what discovery gives. *)
Lemma static_hosts_discovery_witness :
  findBridges (lamps_world 1) mret (init static_platform)
  = (Ok (JArr [descriptor (JStr "10.0.0.5")]), init static_platform).
Proof.
  destruct (static_hosts_discovery (lamps_world 1) (init static_platform)
              [JStr "10.0.0.5"])
    as (D & _).
  - vm_compute. reflexivity.
  - discriminate.
  - exact D.
Defined.

(** Of two entries the one without an address gets a bridge without an
    address. *)
Lemma discovery_entries_unchecked_witness :
  bridges (this (snd (accessories half_blank_world callback
                        (init portal_platform))))
  = [mkBridge (JStr "10.0.0.7"); mkBridge JUndefined].
Proof.
  destruct (discovery_entries_unchecked half_blank_world (init portal_platform)
              [{[ "internalipaddress" := JStr "10.0.0.7" ]}; ∅])
    as (_ & _ & B & U).
  - reflexivity.
  - reflexivity.
  - discriminate.
  - rewrite B. vm_compute. reflexivity.
Defined.



(** * Further properties *)

(** ** More of the constructor *)

Section ConstructorMore.

Variable NumberToString : jsnum → string.
Variable StringToNumber : string → jsnum.
Variables packageName packageVersion nodeVersion homebridgeVersion : jsval.

Abbreviation construct' :=
  (new_HuePlatform NumberToString StringToNumber
     packageName packageVersion nodeVersion homebridgeVersion).





End ConstructorMore.





(** ** The state only grows *)

Lemma grows_refl s : grows s s.
Proof. unfold grows. repeat split; reflexivity. Qed.

Lemma grows_trans s1 s2 s3 : grows s1 s2 → grows s2 s3 → grows s1 s3.
Proof.
  unfold grows.
  intros (C1 & N1 & L1 & B1 & R1 & T1 & I1 & H1 & D1)
         (C2 & N2 & L2 & B2 & R2 & T2 & I2 & H2 & D2).
  repeat split; try congruence; try (etrans; eassumption); lia.
Qed.

Lemma growing_ret {A} (a : A) : growing (mret a).
Proof. intros s r s' [= <- <-]. apply grows_refl. Qed.

Lemma growing_throw {A} e : growing (throw (A:=A) e).
Proof. intros s r s' [= <- <-]. apply grows_refl. Qed.

Lemma growing_bind {A B} (m : M A) (f : A → M B) :
  growing m → (∀ a, growing (f a)) → growing (m ≫= f).
Proof.
  intros Hm Hf s r s'. unfold mbind, M_bind.
  destruct (m s) as [[a|e] s1] eqn:E; intros H.
  - eapply grows_trans; [exact (Hm _ _ _ E)|exact (Hf _ _ _ _ H)].
  - injection H as <- <-. exact (Hm _ _ _ E).
Qed.

Lemma growing_try_catch {A} (m : M A) h :
  growing m → (∀ e, growing (h e)) → growing (try_catch m h).
Proof.
  intros Hm Hh s r s'. unfold try_catch.
  destruct (m s) as [[a|e] s1] eqn:E; intros H.
  - injection H as <- <-. exact (Hm _ _ _ E).
  - eapply grows_trans; [exact (Hm _ _ _ E)|exact (Hh _ _ _ _ H)].
Qed.

Lemma growing_modify f : (∀ s, grows s (f s)) → growing (modify f).
Proof. intros H s r s' [= <- <-]. apply H. Qed.

Ltac grows_by_parts :=
  intros; unfold grows, logged, set_log, set_bridges; simpl;
  repeat split; try reflexivity; try (now apply prefix_app_r); try lia.

Lemma growing_log_call lvl a : growing (log_call lvl a).
Proof. apply growing_modify. grows_by_parts. Qed.

Lemma growing_push_bridge b : growing (push_bridge b).
Proof. apply growing_modify. grows_by_parts. Qed.

Lemma growing_later : growing later.
Proof. apply growing_modify. grows_by_parts. Qed.

Lemma growing_send r : growing (send r).
Proof. apply growing_modify. grows_by_parts. Qed.

Lemma growing_setInterval t : growing (setInterval t).
Proof. apply growing_modify. grows_by_parts. Qed.

Lemma growing_callback l : growing (callback l).
Proof. apply growing_modify. grows_by_parts. Qed.

Lemma growing_gets {A} (f : State → A) : growing (gets f).
Proof. intros s r s' [= <- <-]. apply grows_refl. Qed.

Lemma growing_get v k : growing (get v k).
Proof. intros s r s' H. apply get_state in H as ->. apply grows_refl. Qed.

Lemma growing_iterate v : growing (iterate v).
Proof. destruct v; simpl; auto using growing_ret, growing_throw. Qed.

Lemma growing_drop_excess l : growing (drop_excess l).
Proof.
  intros s r s'. rewrite drop_excess_spec. intros [= <- <-]. grows_by_parts.
Qed.

Create HintDb growing.

#[local] Hint Resolve growing_ret growing_throw growing_log_call
  growing_push_bridge growing_later growing_send growing_setInterval
  growing_callback growing_gets growing_get growing_iterate
  growing_drop_excess : growing.

Ltac growing :=
  repeat first
    [ apply growing_bind; [|intros ?]
    | apply growing_try_catch; [|intros ?]
    | solve [auto with growing]
    | match goal with
      | |- growing (if ?b then _ else _) => destruct b
      | |- growing (match ?x with _ => _ end) => destruct x
      end ].

Lemma growing_findBridges {A} w (k : jsval → M A) :
  (∀ json, growing (k json)) → growing (findBridges w k).
Proof.
  intros Hk. unfold findBridges, request. growing; apply Hk.
Qed.

Lemma growing_probe_bridges w objs promises :
  growing (probe_bridges w objs promises).
Proof.
  revert promises. induction objs as [|obj objs IH]; intros promises; simpl.
  - growing.
  - growing; apply IH.
Qed.

Lemma growing_on_lists lists : growing (on_lists callback lists).
Proof. unfold on_lists. growing. Qed.

Lemma growing_on_error err : growing (on_error err).
Proof. unfold on_error. growing. Qed.

Lemma growing_then_catch (p : Promise (list (list Accessory))) :
  growing (then_catch p (on_lists callback) on_error).
Proof.
  unfold then_catch. destruct p; growing;
    auto using growing_on_lists, growing_on_error.
Qed.

Lemma growing_on_bridges w json : growing (on_bridges w callback json).
Proof.
  unfold on_bridges. growing;
    auto using growing_probe_bridges, growing_then_catch.
Qed.

(** X5: whatever the portal and the bridges do and however the run ends,
    [accessories] only adds to the log, to [this.bridges], to the requests,
    to the timers and to the lists handed to homebridge; what was there
    stays in place; the settings and the name are left alone, and no
    heartbeat is sent. *)
Theorem accessories_grows w s r s' :
  accessories w callback s = (r, s') →
  config (this s') = config (this s) ∧
  this_name (this s') = this_name (this s) ∧
  log (this s) `prefix_of` log (this s') ∧
  bridges (this s) `prefix_of` bridges (this s') ∧
  requests s `prefix_of` requests s' ∧
  (turns s ≤ turns s')%nat ∧
  intervals s `prefix_of` intervals s' ∧
  heartbeats s' = heartbeats s ∧
  returned s `prefix_of` returned s'.
Proof.
  revert s r s'. change (growing (accessories w callback)).
  unfold accessories. apply growing_findBridges. apply growing_on_bridges.
Qed.

(** ** More of discovery *)

(** X6: without static hosts, [findBridges] asks the portal exactly once,
    however the answer turns out: one GET request with the configured
    timeout goes out, the rest runs later, the debug line is logged first
    and at most one more line follows, an error. *)
Theorem portal_asked_once w s r s' :
  hosts (config (this s)) = None →
  findBridges w mret s = (r, s') →
  requests s' = requests s ++ [portal_request s] ∧
  Request.timeout (portal_request s) = timeout (config (this s)) ∧
  turns s' = S (turns s) ∧
  ∃ es, log (this s')
        = log (this s) ++ mkLog Debug [JStr "contacting meethue portal"] :: es
        ∧ (length es ≤ 1)%nat ∧ errors es = length es.
Proof.
  intros H.
  unfold findBridges, request, log_call, send, later, modify, gets,
    mbind, M_bind, mret, M_ret. rewrite H.
  destruct (portal w) as [err|statusCode responseBody].
  { intros [= <- <-]. repeat split. eexists [_].
    split; [same_state|]. split; [simpl; lia|reflexivity]. }
  destruct (negb (statusCode =? 200)).
  { intros [= <- <-]. repeat split. eexists [_].
    split; [same_state|]. split; [simpl; lia|reflexivity]. }
  match goal with
  | |- context [get ?b ?k ?s0] =>
      destruct (get b k s0) as [[v|e] s2] eqn:G; apply get_state in G as ->
  end; [destruct (is_zero v)|]; intros [= <- <-]; repeat split.
  - eexists [_]. split; [same_state|]. split; [simpl; lia|reflexivity].
  - exists []. split; [same_state|]. split; [simpl; lia|reflexivity].
  - exists []. split; [same_state|]. split; [simpl; lia|reflexivity].
Qed.

(** X7: a 200 answer whose body is [undefined] or [null] makes
    [findBridges] throw when it reads the length of the body: its callback
    is not called, whatever it is, no error is logged, and [accessories]
    ends with that exception, with no bridge made and homebridge not called
    back. *)
Theorem portal_body_missing_throws w s body :
  hosts (config (this s)) = None →
  portal w = Response 200 body →
  body = JUndefined ∨ body = JNull →
  (∀ A (k : jsval → M A),
     findBridges w k s
     = (Thrown (TypeError "Cannot read property length"), asked [] s)) ∧
  accessories w callback s
  = (Thrown (TypeError "Cannot read property length"), asked [] s) ∧
  errors (log (this (asked [] s))) = errors (log (this s)) ∧
  bridges (this (asked [] s)) = bridges (this s) ∧
  returned (asked [] s) = returned s.
Proof.
  intros H P B.
  assert (F : ∀ A (k : jsval → M A),
            findBridges w k s
            = (Thrown (TypeError "Cannot read property length"), asked [] s)).
  { intros A k.
    unfold findBridges, request, log_call, send, later, modify, gets,
      mbind, M_bind, mret, M_ret. rewrite H, P.
    destruct B as [-> | ->]; simpl; unfold throw; f_equal; same_state. }
  split; [exact F|]. split; [apply F|].
  split; [|split; reflexivity].
  simpl. rewrite errors_app. unfold errors at 2. simpl. lia.
Qed.

(** X8: a 200 answer whose body is a boolean, a number, or an object whose
    [length] is not 0 is taken for a list of bridges: no error is logged;
    [accessories] then throws as it cannot iterate over it when it is
    truthy, and ends silently when it is falsy.  Either way no bridge is
    made and homebridge is not called back. *)
Theorem portal_body_no_list w s body :
  hosts (config (this s)) = None →
  portal w = Response 200 body →
  ((∃ b, body = JBool b) ∨ (∃ n, body = JNum n)
   ∨ (∃ o, body = JObj o ∧ is_zero (prop o "length") = false)) →
  findBridges w mret s = (Ok body, asked [] s) ∧
  accessories w callback s
  = (if truthy body then Thrown (TypeError "not iterable") else Ok tt,
     asked [] s) ∧
  errors (log (this (asked [] s))) = errors (log (this s)).
Proof.
  intros H P B.
  assert (F : findBridges w mret s = (Ok body, asked [] s)).
  { unfold findBridges, request, log_call, send, later, modify, gets,
      mbind, M_bind, mret, M_ret. rewrite H, P.
    destruct B as [[b ->]|[[n ->]|(o & -> & Z)]]; simpl;
      try rewrite Z; f_equal; same_state. }
  split; [exact F|]. split.
  - unfold accessories. rewrite findBridges_cps, (bind_Ok _ _ _ _ _ F).
    unfold on_bridges.
    destruct B as [[b ->]|[[n ->]|(o & -> & Z)]];
      destruct (truthy _); reflexivity.
  - simpl. rewrite errors_app. unfold errors at 2. simpl. lia.
Qed.

(** X9: [findBridges] with a callback is [findBridges] followed by the
    callback: on every path that does not throw, the callback is called
    once, last, with what has been found; and the only way [findBridges]
    itself throws is a 200 answer with [undefined] or [null] for a body. *)
Theorem callback_called_last {A} w (k : jsval → M A) s :
  findBridges w k s
  = match findBridges w mret s with
    | (Ok json, s') => k json s'
    | (Thrown e, s') => (Thrown e, s')
    end ∧
  ∀ e s', findBridges w mret s = (Thrown e, s') →
          hosts (config (this s)) = None ∧
          (portal w = Response 200 JUndefined ∨ portal w = Response 200 JNull).
Proof.
  split; [apply findBridges_cps|].
  intros e s'.
  unfold findBridges, request, log_call, send, later, modify, gets,
    mbind, M_bind, mret, M_ret.
  destruct (hosts (config (this s))); [discriminate|].
  destruct (portal w) as [err|statusCode responseBody]; [discriminate|].
  destruct (negb (statusCode =? 200)) eqn:S200; [discriminate|].
  apply negb_false_iff, Z.eqb_eq in S200 as ->.
  destruct responseBody; cbn [get]; unfold throw, mret, M_ret; auto;
    match goal with |- context [is_zero ?v] => destruct (is_zero v) end;
    discriminate.
Qed.

(** ** More of aggregation *)

Lemma probe_bridges_app w objs1 objs2 promises s :
  probe_bridges w (objs1 ++ objs2) promises s
  = (probe_bridges w objs1 promises
     ≫= λ promises', probe_bridges w objs2 promises') s.
Proof.
  revert promises s. induction objs1 as [|obj objs1 IH]; intros promises s.
  - reflexivity.
  - cbn [app probe_bridges]. unfold mbind, M_bind in *.
    destruct (get obj "internalipaddress" s) as [[a|e] s1]; [|reflexivity].
    unfold log_call, push_bridge, modify. apply IH.
Qed.

Lemma no_rejection_first {A} (ps : list (Promise A)) order :
  (∀ i e, ps !! i ≠ Some (Rejected e)) → first_rejection ps order = None.
Proof.
  intros N. induction order as [|i order IH]; simpl; [reflexivity|].
  destruct (ps !! i) as [[| |e]|] eqn:E; auto. now destruct (N i e).
Qed.

Lemma pending_not_all_fulfilled {A} (ps : list (Promise A)) i :
  ps !! i = Some Pending → all_fulfilled ps = None.
Proof.
  revert i. induction ps as [|p ps IH]; intros [|i]; simpl; try discriminate.
  - intros [= ->]. reflexivity.
  - intros H. destruct p; auto. now rewrite (IH _ H).
Qed.

Lemma first_rejection_found {A} (ps : list (Promise A)) pre i rest e :
  (∀ j e', j ∈ pre → ps !! j ≠ Some (Rejected e')) →
  ps !! i = Some (Rejected e) →
  first_rejection ps (pre ++ i :: rest) = Some e.
Proof.
  intros N Hi. induction pre as [|j pre IH]; simpl.
  - now rewrite Hi.
  - destruct (ps !! j) as [[| |e']|] eqn:E;
      try (apply IH; intros; apply N; now right).
    destruct (N j e'); [now left|exact E].
Qed.

(** With static hosts a bridge is made for each host, whatever the probes
    do, and no request goes out. *)
Lemma accessories_static w s l r s' :
  hosts (config (this s)) = Some l →
  accessories w callback s = (r, s') →
  bridges (this s') = bridges (this s) ++ (mkBridge <$> l) ∧
  requests s' = requests s ∧
  config (this s') = config (this s).
Proof.
  intros H. rewrite (accessories_discovered _ _ _ _ (discovered_static _ _ _ H)).
  assert (B : bridge_of <$> ((λ h : jsval, {[ "internalipaddress" := h ]}) <$> l)
              = mkBridge <$> l).
  { rewrite <- list_fmap_compose. apply list_fmap_ext. intros i h _.
    unfold bridge_of, prop. simpl. now rewrite lookup_singleton_eq. }
  destruct (Promise_all _ _) as [|lists|err].
  - rewrite join_pending. intros [= <- <-]. simpl. now rewrite B.
  - rewrite join_fulfilled. intros [= <- <-]. simpl. now rewrite B.
  - destruct (join_rejected err (probed
        ((λ h : jsval, {[ "internalipaddress" := h ]}) <$> l) s)) as [r' ->].
    intros [= <- <-]. simpl. now rewrite B.
Qed.

(** X10: an entry of the discovery result that is [null] or [undefined]
    stops [accessories] with an exception at that entry: the bridges of the
    entries before it have been made and are kept, none is made for the
    entries after it, the probes are not joined, no timer is set and
    homebridge is not called back. *)
Theorem null_entry_stops_probing w s s1 os e rest :
  findBridges w mret s = (Ok (JArr ((JObj <$> os) ++ e :: rest)), s1) →
  e = JNull ∨ e = JUndefined →
  accessories w callback s
  = (Thrown (TypeError "Cannot read property internalipaddress"),
     probed os s1) ∧
  bridges (this (probed os s1)) = bridges (this s1) ++ (bridge_of <$> os) ∧
  intervals (probed os s1) = intervals s ∧
  returned (probed os s1) = returned s.
Proof.
  intros D E.
  pose proof (findBridges_quiet _ _ _ _ D) as (Qi & Qr & _).
  split; [|split; [reflexivity|split; [exact Qi|exact Qr]]].
  unfold accessories. rewrite findBridges_cps, (bind_Ok _ _ _ _ _ D).
  unfold on_bridges. cbn [truthy iterate].
  unfold mbind at 1, M_bind at 1, mret at 1, M_ret at 1.
  unfold mbind at 1, M_bind at 1.
  rewrite probe_bridges_app. unfold mbind at 1, M_bind at 1.
  rewrite probe_bridges_objects.
  destruct E as [-> | ->]; reflexivity.
Qed.

(** X11: an empty list of static hosts is not a failed discovery: the join
    of no probes is fulfilled at once, so homebridge is handed the empty
    list; no bridge is made, no timer is set, nothing is logged and no
    request goes out. *)
Theorem empty_hosts_called_back w s :
  hosts (config (this s)) = Some [] →
  accessories w callback s
  = (Ok tt, mkState (this s) (requests s) (S (turns s)) (intervals s)
              (heartbeats s) (returned s ++ [[]])).
Proof.
  intros H.
  rewrite (accessories_discovered w s s [] (findBridges_static _ _ _ H)).
  change (probes w []) with (Fulfilled <$> ([] : list (list Accessory))).
  rewrite Promise_all_fulfilled, join_fulfilled.
  f_equal. unfold aggregated, probed, set_log. simpl.
  destruct s as [[lg nm cf br] rq tn iv hb rt]. simpl.
  now rewrite !app_nil_r.
Qed.

(** X12: when no probe is rejected and one of them never settles, the join
    never settles either: [accessories] ends after it has made the bridges,
    homebridge is never called back, no timer is set and nothing is logged
    about it, whatever the other bridges have answered. *)
Theorem pending_probe_hangs w s s1 os i :
  findBridges w mret s = (Ok (JArr (JObj <$> os)), s1) →
  (∀ j e, probes w os !! j ≠ Some (Rejected e)) →
  probes w os !! i = Some Pending →
  accessories w callback s = (Ok tt, probed os s1) ∧
  returned (probed os s1) = returned s ∧
  intervals (probed os s1) = intervals s ∧
  errors (log (this (probed os s1))) = errors (log (this s1)).
Proof.
  intros D N P.
  pose proof (findBridges_quiet _ _ _ _ D) as (Qi & Qr & _).
  split; [|split; [exact Qr|split; [exact Qi|]]].
  - rewrite (accessories_discovered _ _ _ _ D). unfold Promise_all.
    rewrite (no_rejection_first _ _ N), (pending_not_all_fulfilled _ _ P).
    reflexivity.
  - simpl. rewrite errors_app, errors_probing. lia.
Qed.

(** X13: when several probes are rejected, the one that is rejected first
    decides: the [catch] function gets the reason of the first probe, in the
    order in which the probes settle, that is rejected, and only that reason
    is reported. *)
Theorem first_settled_rejection_wins w s s1 os pre i rest e :
  findBridges w mret s = (Ok (JArr (JObj <$> os)), s1) →
  settle w = pre ++ i :: rest →
  (∀ j e', j ∈ pre → probes w os !! j ≠ Some (Rejected e')) →
  probes w os !! i = Some (Rejected e) →
  Promise_all (settle w) (probes w os) = Rejected e ∧
  ∃ r, accessories w callback s = (r, failed e (probed os s1)) ∧
       log (this (failed e (probed os s1)))
       = log (this s1) ++ (probing <$> os) ++ reported e.
Proof.
  intros D S N P.
  assert (R : Promise_all (settle w) (probes w os) = Rejected e).
  { unfold Promise_all. rewrite S, <- app_assoc.
    change ((i :: rest) ++ ?k) with (i :: rest ++ k).
    now rewrite (first_rejection_found _ _ _ _ _ N P). }
  split; [exact R|].
  destruct (join_rejected e (probed os s1)) as [r Hr].
  exists r. split.
  - rewrite (accessories_discovered _ _ _ _ D), R. exact Hr.
  - simpl. now rewrite <- app_assoc.
Qed.

(** X14: with static hosts, [accessories] makes one bridge for each host,
    with the host for its address and in the order of the hosts, whatever
    the probes do and however the run ends, and it never sends a request. *)
Theorem static_bridges w s l r s' :
  hosts (config (this s)) = Some l →
  accessories w callback s = (r, s') →
  bridges (this s') = bridges (this s) ++ (mkBridge <$> l) ∧
  address <$> (mkBridge <$> l) = l ∧
  requests s' = requests s.
Proof.
  intros H R. destruct (accessories_static _ _ _ _ _ H R) as (B & Q & _).
  split; [exact B|]. split; [|exact Q].
  rewrite <- list_fmap_compose. apply list_fmap_id.
Qed.

(** X15: [accessories] is not made to run twice: a second run makes the
    bridges of the static hosts again, so that every bridge is twice in
    [this.bridges]; and when both runs hand homebridge a list with
    accessories, two heartbeat timers are set. *)
Theorem second_run_duplicates w w' s l :
  hosts (config (this s)) = Some l →
  let s1 := snd (accessories w callback s) in
  let s2 := snd (accessories w' callback s1) in
  bridges (this s2)
  = bridges (this s) ++ (mkBridge <$> l) ++ (mkBridge <$> l) ∧
  (∀ a la b lb, returned s1 = returned s ++ [a :: la] →
                returned s2 = returned s1 ++ [b :: lb] →
                intervals s2
                = intervals s ++ [heartbeat_timer; heartbeat_timer]).
Proof.
  intros H. cbv zeta.
  destruct (accessories w callback s) as [r1 t1] eqn:R1. cbn [snd].
  destruct (accessories w' callback t1) as [r2 t2] eqn:R2. cbn [snd].
  destruct (accessories_static _ _ _ _ _ H R1) as (B1 & _ & C1).
  rewrite <- C1 in H.
  destruct (accessories_static _ _ _ _ _ H R2) as (B2 & _ & _).
  split; [rewrite B2, B1; now rewrite <- app_assoc|].
  intros a la b lb Ha Hb.
  apply accessories_cases in R1 as [[_ E1]|(lists1 & E1 & I1)].
  { rewrite E1 in Ha. apply (f_equal length) in Ha.
    rewrite length_app in Ha. simpl in Ha. lia. }
  apply accessories_cases in R2 as [[_ E2]|(lists2 & E2 & I2)].
  { rewrite E2 in Hb. apply (f_equal length) in Hb.
    rewrite length_app in Hb. simpl in Hb. lia. }
  rewrite E1 in Ha. apply app_inj_tail in Ha as [_ Ha].
  rewrite E2 in Hb. apply app_inj_tail in Hb as [_ Hb].
  rewrite I2, I1.
  destruct (concat lists1); [discriminate|].
  destruct (concat lists2); [discriminate|].
  simpl. now rewrite <- app_assoc.
Qed.

(** ** More of the heartbeat *)

Lemma fires_full n i s :
  intervals s !! i = Some heartbeat_timer →
  ∃ sn, fires n i s = (Ok tt, sn)
        ∧ intervals sn !! i = Some (mkInterval 1000 (beat_after n))
        ∧ this sn = this s
        ∧ requests sn = requests s ∧ turns sn = turns s
        ∧ returned sn = returned s
        ∧ heartbeats sn
          = heartbeats s
            ++ concat ((λ k, notified (bridges (this s)) (beat_after (S k)))
                         <$> seq 0 n).
Proof.
  intros H. induction n as [|n (sn & F & I & T & Rq & Tn & Rt & Hb)].
  - exists s. simpl. rewrite app_nil_r. auto 10.
  - eexists. cbn [fires]. rewrite (bind_Ok _ _ _ _ _ F).
    rewrite (tick_spec _ _ _ I). split; [reflexivity|].
    cbn [intervals this requests turns returned heartbeats].
    rewrite list_lookup_alter_eq, I.
    cbn [fmap option_fmap option_map delay beat]. rewrite beat_step.
    repeat split; auto.
    rewrite Hb, T, seq_S, fmap_app, concat_app.
    cbn [fmap list_fmap concat plus]. now rewrite app_nil_r, app_assoc.
Qed.

(** X16: [n] fires of a fresh heartbeat timer in a row call [heartbeat]
    on every bridge [n] times, with the beats 0, 1, ... (modulo 604800) in
    this order and, within a fire, in the order of [this.bridges]; they
    change nothing else but the beat of the timer. *)
Theorem fires_trace n i s :
  intervals s !! i = Some heartbeat_timer →
  ∃ sn,
    fires n i s = (Ok tt, sn) ∧
    heartbeats sn
    = heartbeats s
      ++ concat ((λ k, notified (bridges (this s)) (Z.of_nat k mod 604800))
                   <$> seq 0 n) ∧
    length (heartbeats sn)
    = (length (heartbeats s) + n * length (bridges (this s)))%nat ∧
    this sn = this s ∧ requests sn = requests s ∧ returned sn = returned s.
Proof.
  intros H.
  destruct (fires_full n i s H) as (sn & F & _ & T & Rq & _ & Rt & Hb).
  exists sn. repeat split; auto.
  rewrite Hb, length_app. f_equal.
  clear. generalize 0%nat as from.
  induction n as [|n IH]; intros from; simpl; [reflexivity|].
  rewrite length_app, IH. unfold notified. now rewrite length_fmap.
Qed.

(** X17: the beat repeats after a week: 604800 fires later the timer has
    the same beat again. *)
Theorem beat_weekly_period n i s :
  intervals s !! i = Some heartbeat_timer →
  ∃ sa sb,
    fires (S n) i s = (Ok tt, sa) ∧
    fires (S n + Z.to_nat 604800) i s = (Ok tt, sb) ∧
    intervals sb !! i = intervals sa !! i.
Proof.
  intros H.
  destruct (fires_spec (S n) i s H) as (sa & Fa & Ia & _).
  destruct (fires_spec (S n + Z.to_nat 604800) i s H) as (sb & Fb & Ib & _).
  exists sa, sb. split; [exact Fa|]. split; [exact Fb|].
  rewrite Ia, Ib. do 2 f_equal.
  change (S n + Z.to_nat 604800)%nat with (S (n + Z.to_nat 604800)).
  unfold beat_after.
  rewrite Nat2Z.inj_add, Z2Nat.id by lia.
  rewrite <- (Z.mul_1_l 604800) at 1.
  apply Z_mod_plus_full.
Qed.

(** X18: a fire of the timer at index [i] changes the beat of that timer
    and nothing else of the state but the record of heartbeats: the
    platform, the requests and the lists handed to homebridge stay, the
    other timers keep their beat, the timer keeps its delay; a beat of at
    least -1 becomes a beat in [0, 604800); and a fire at an index with no
    timer does nothing. *)
Theorem tick_frame i s :
  ∃ s',
    tick i s = (Ok tt, s') ∧
    this s' = this s ∧ requests s' = requests s ∧ turns s' = turns s ∧
    returned s' = returned s ∧
    length (intervals s') = length (intervals s) ∧
    (∀ j, j ≠ i → intervals s' !! j = intervals s !! j) ∧
    delay <$> intervals s' !! i = delay <$> intervals s !! i ∧
    (intervals s !! i = None → s' = s) ∧
    (∀ t, intervals s !! i = Some t → -1 ≤ beat t →
          ∃ t', intervals s' !! i = Some t' ∧ 0 ≤ beat t' < 604800).
Proof.
  destruct (intervals s !! i) as [t|] eqn:E.
  - eexists. rewrite (tick_spec _ _ _ E). split; [reflexivity|]. simpl.
    repeat split; auto.
    + apply length_alter.
    + intros j Hj. now apply list_lookup_alter_ne.
    + rewrite list_lookup_alter_eq, E. reflexivity.
    + discriminate.
    + intros t0 [= <-] B. eexists. rewrite list_lookup_alter_eq, E.
      split; [reflexivity|]. simpl.
      change (7 * 24 * 3600) with 604800.
      rewrite Z.rem_mod_nonneg by lia. apply Z.mod_pos_bound. lia.
  - exists s. unfold tick, gets, mbind, M_bind. rewrite E.
    repeat split; auto. discriminate.
Qed.

(** ** The constructor and discovery together *)



(** ** The further statements at work *)


Lemma accessories_grows_witness :
  bridges static_platform
    `prefix_of` bridges (this (snd (accessories (lamps_world 12) callback
                                      (init static_platform)))).
Proof.
  destruct (accessories_grows (lamps_world 12) (init static_platform)
              (fst (accessories (lamps_world 12) callback (init static_platform)))
              (snd (accessories (lamps_world 12) callback (init static_platform))))
    as (_ & _ & _ & B & _).
  - apply surjective_pairing.
  - exact B.
Defined.

Lemma portal_asked_once_witness :
  requests (snd (findBridges (lamps_world 1) mret (init portal_platform)))
  = [portal_request (init portal_platform)].
Proof.
  destruct (portal_asked_once (lamps_world 1) (init portal_platform)
              (fst (findBridges (lamps_world 1) mret (init portal_platform)))
              (snd (findBridges (lamps_world 1) mret (init portal_platform))))
    as (R & _).
  - reflexivity.
  - apply surjective_pairing.
  - exact R.
Defined.

Lemma portal_body_missing_throws_witness :
  returned (snd (accessories no_body_world callback (init portal_platform)))
  = [].
Proof.
  destruct (portal_body_missing_throws no_body_world (init portal_platform)
              JUndefined)
    as (_ & R & _ & _ & Hr).
  - reflexivity.
  - reflexivity.
  - now left.
  - rewrite R. exact Hr.
Defined.

Lemma portal_body_no_list_witness :
  fst (accessories object_body_world callback (init portal_platform))
  = Thrown (TypeError "not iterable").
Proof.
  destruct (portal_body_no_list object_body_world (init portal_platform)
              (JObj {[ "error" := JStr "busy" ]}))
    as (_ & R & _).
  - reflexivity.
  - reflexivity.
  - right. right. eexists. split; [reflexivity|]. vm_compute. reflexivity.
  - rewrite R. reflexivity.
Defined.

Lemma null_entry_stops_probing_witness :
  bridges (this (snd (accessories null_entry_world callback
                        (init portal_platform))))
  = [mkBridge (JStr "10.0.0.7")].
Proof.
  destruct (null_entry_stops_probing null_entry_world (init portal_platform)
              (asked [] (init portal_platform))
              [{[ "internalipaddress" := JStr "10.0.0.7" ]}] JNull [])
    as (R & B & _).
  - vm_compute. reflexivity.
  - now left.
  - rewrite R. cbn [snd]. rewrite B. vm_compute. reflexivity.
Defined.

Lemma empty_hosts_called_back_witness :
  returned (snd (accessories (lamps_world 1) callback (init hostless_platform)))
  = [[]].
Proof.
  rewrite (empty_hosts_called_back (lamps_world 1) (init hostless_platform)).
  - reflexivity.
  - vm_compute. reflexivity.
Defined.

Lemma pending_probe_hangs_witness :
  returned (snd (accessories hanging_world callback (init pair_platform))) = [].
Proof.
  destruct (pending_probe_hangs hanging_world (init pair_platform)
              (init pair_platform)
              [{[ "internalipaddress" := JStr "10.0.0.5" ]};
               {[ "internalipaddress" := JStr "10.0.0.6" ]}] 0%nat)
    as (R & Hr & _).
  - vm_compute. reflexivity.
  - intros [|[|j]] e; vm_compute; discriminate.
  - reflexivity.
  - rewrite R. exact Hr.
Defined.

Lemma first_settled_rejection_wins_witness :
  last (log (this (snd (accessories racing_world callback
                          (init pair_platform)))))
  = Some (mkLog Error [JStr "second"]).
Proof.
  destruct (first_settled_rejection_wins racing_world (init pair_platform)
              (init pair_platform)
              [{[ "internalipaddress" := JStr "10.0.0.5" ]};
               {[ "internalipaddress" := JStr "10.0.0.6" ]}]
              [] 1%nat [] (JObj {[ "message" := JStr "second" ]}))
    as (_ & r & R & L).
  - vm_compute. reflexivity.
  - reflexivity.
  - intros j e' Hj. now apply elem_of_nil in Hj.
  - reflexivity.
  - rewrite R. cbn [snd]. rewrite L. vm_compute. reflexivity.
Defined.

Lemma static_bridges_witness :
  bridges (this (snd (accessories unreachable_world callback
                        (init static_platform))))
  = [mkBridge (JStr "10.0.0.5")].
Proof.
  destruct (static_bridges unreachable_world (init static_platform)
              [JStr "10.0.0.5"]
              (fst (accessories unreachable_world callback (init static_platform)))
              (snd (accessories unreachable_world callback (init static_platform))))
    as (B & _).
  - vm_compute. reflexivity.
  - apply surjective_pairing.
  - exact B.
Defined.

Lemma second_run_duplicates_witness :
  bridges (this (snd (accessories (lamps_world 2) callback
                        (snd (accessories (lamps_world 1) callback
                                (init static_platform))))))
  = [mkBridge (JStr "10.0.0.5"); mkBridge (JStr "10.0.0.5")].
Proof.
  destruct (second_run_duplicates (lamps_world 1) (lamps_world 2)
              (init static_platform) [JStr "10.0.0.5"])
    as (B & _).
  - vm_compute. reflexivity.
  - exact B.
Defined.

Lemma fires_trace_witness :
  ∃ s2, fires 2 0
          (mkState (set_bridges [mkBridge (JStr "10.0.0.5");
                                 mkBridge (JStr "10.0.0.6")] pair_platform)
             [] 0 [heartbeat_timer] [] [])
        = (Ok tt, s2)
        ∧ heartbeats s2
          = [(mkBridge (JStr "10.0.0.5"), 0); (mkBridge (JStr "10.0.0.6"), 0);
             (mkBridge (JStr "10.0.0.5"), 1); (mkBridge (JStr "10.0.0.6"), 1)].
Proof.
  destruct (fires_trace 2 0
              (mkState (set_bridges [mkBridge (JStr "10.0.0.5");
                                     mkBridge (JStr "10.0.0.6")] pair_platform)
                 [] 0 [heartbeat_timer] [] []))
    as (s2 & F & T & _).
  - reflexivity.
  - exists s2. split; [exact F|exact T].
Defined.

Lemma beat_weekly_period_witness :
  ∃ sa sb,
    fires 1 0 (mkState static_platform [] 0 [heartbeat_timer] [] [])
    = (Ok tt, sa) ∧
    fires (1 + Z.to_nat 604800) 0
      (mkState static_platform [] 0 [heartbeat_timer] [] [])
    = (Ok tt, sb) ∧
    intervals sb !! 0%nat = intervals sa !! 0%nat.
Proof.
  apply (beat_weekly_period 0 0
           (mkState static_platform [] 0 [heartbeat_timer] [] [])).
  reflexivity.
Defined.

